(** * bloom.hpp: the LevelDB-style Bloom filter of SuRF, embedded and verified

    The development follows [src/bloom/bloom.hpp].  Platform assumptions of
    the embedding (the ones the C++ text leaves to the implementation):
    - [size_t] is 64 bits wide and [int] is 32 bits wide (LP64);
    - [memcpy] into a [uint32_t] and the object representation of a
      [uint64_t] are little-endian;
    - whether plain [char] is signed is left open: it is the Boolean
      parameter [char_signed] of the definitions that read or write a
      [char], and every result holds for both values;
    - [double] is IEEE-754 binary64, as specified by [SpecFloat].

    A [std::string] is a [list byte]; unsigned fixed-width integers are
    [Z] with the wrap-around written out; undefined behaviour (an index past
    the end, [h % 0], a [double] that does not fit [size_t]) is [None]. *)

From Stdlib Require Import ZArith List Lia Bool Reals Lra.
From Stdlib Require Import Floats.SpecFloat.
From Stdlib Require Import Strings.Byte.
From stdpp Require Import base option list.

Local Open Scope Z_scope.

(** ** Machine integers and characters *)

Definition u32 (z : Z) : Z := z mod 2 ^ 32.
Definition size_t (z : Z) : Z := z mod 2 ^ 64.

Definition INT_MAX : Z := 2 ^ 31 - 1.

(** The value of a byte read as [unsigned char]. *)
Definition uchar (c : byte) : Z := Z.of_N (Byte.to_N c).

(** The value of a byte read as plain [char] and promoted to [int]. *)
Definition char_val (char_signed : bool) (c : byte) : Z :=
  if char_signed && (128 <=? uchar c) then uchar c - 256 else uchar c.

(** Conversion of an integer to [char]: the low eight bits. *)
Definition to_char (z : Z) : byte :=
  default x00 (Byte.of_N (Z.to_N (z mod 256))).

(** ** Hash *)

Definition DecodeFixed32 (b0 b1 b2 b3 : byte) : Z :=
  Z.lor (uchar b0)
    (Z.lor (Z.shiftl (uchar b1) 8)
       (Z.lor (Z.shiftl (uchar b2) 16) (Z.shiftl (uchar b3) 24))).

Definition Hash_m : Z := 0xc6a4a793.
Definition Hash_r : Z := 24.

(** [while (data + 4 <= limit)]: consumes four bytes per round and returns
    the accumulator together with the 0 to 3 bytes that are left. *)
Fixpoint Hash_words (data : list byte) (h : Z) : Z * list byte :=
  match data with
  | b0 :: b1 :: b2 :: b3 :: rest =>
      let w := DecodeFixed32 b0 b1 b2 b3 in
      let h := u32 (h + w) in
      let h := u32 (h * Hash_m) in
      let h := Z.lxor h (Z.shiftr h 16) in
      Hash_words rest h
  | _ => (h, data)
  end.

Definition Hash_mix (h : Z) : Z :=
  let h := u32 (h * Hash_m) in
  Z.lxor h (Z.shiftr h Hash_r).

(** [switch (limit - data)] with its fall-through cases written out. *)
Definition Hash_tail (tail : list byte) (h : Z) : Z :=
  match tail with
  | [b0; b1; b2] =>
      let h := u32 (h + Z.shiftl (uchar b2) 16) in
      let h := u32 (h + Z.shiftl (uchar b1) 8) in
      let h := u32 (h + uchar b0) in
      Hash_mix h
  | [b0; b1] =>
      let h := u32 (h + Z.shiftl (uchar b1) 8) in
      let h := u32 (h + uchar b0) in
      Hash_mix h
  | [b0] =>
      let h := u32 (h + uchar b0) in
      Hash_mix h
  | _ => h
  end.

(** [Hash(data, n, seed)] with [n] the length of [data]. *)
Definition Hash (data : list byte) (seed : Z) : Z :=
  let n := Z.of_nat (length data) in
  let h := u32 (Z.lxor seed (size_t (n * Hash_m))) in
  let '(h, tail) := Hash_words data h in
  Hash_tail tail h.

Definition bloom_seed : Z := 0xbc9f1d34.

(** The object representation of an integer, low byte first. *)
Fixpoint le_bytes (n : nat) (z : Z) : list byte :=
  match n with
  | O => []
  | S n' => to_char z :: le_bytes n' (Z.shiftr z 8)
  end.

(** The two overloads of [BloomHash] are the two instances of one class;
    the second field records that the result is a [uint32_t]. *)
Class BloomKey (K : Type) := {
  BloomHash : K -> Z;
  BloomHash_u32 : forall key, 0 <= BloomHash key < 2 ^ 32
}.

Definition BloomHash_string (key : list byte) : Z := Hash key bloom_seed.

Definition BloomHash_uint64 (key : Z) : Z := Hash (le_bytes 8 key) bloom_seed.

(** ** The policy object and its constructor *)

Record BloomFilter := mkBloomFilter {
  bits_per_key_ : Z;   (* size_t *)
  k_ : Z               (* size_t *)
}.

Definition prec : Z := 53.
Definition emax : Z := 1024.

(** The literal [0.69] as the binary64 number nearest to it. *)
Definition double_0_69 : spec_float := S754_finite false 6214967485771284 (-53).

(** Conversion of an [int] to [double] (exact below [2 ^ 53]). *)
Definition double_of_int (z : Z) : spec_float := binary_normalize prec emax z 0 false.

(** [static_cast<size_t>] of a [double]: truncation toward zero, undefined
    when the truncated value is not a [size_t]. *)
Definition size_t_of_double (x : spec_float) : option Z :=
  match x with
  | S754_zero _ => Some 0
  | S754_finite s m e =>
      let t := Z.shiftl (Z.pos m) e in
      if s then (if t =? 0 then Some 0 else None)
      else if t <? 2 ^ 64 then Some t else None
  | _ => None
  end.

Definition BloomFilter_ctor (bits_per_key : Z) : option BloomFilter :=
  k ← size_t_of_double (SFmul prec emax (double_of_int bits_per_key) double_0_69);
  let k := if k <? 1 then 1 else k in
  let k := if 30 <? k then 30 else k in
  Some {| bits_per_key_ := size_t bits_per_key; k_ := k |}.

(** ** Construction and query *)

Section Filter.
Context {K : Type} `{BloomKey K}.
Variable char_signed : bool.

(** [(h >> 17) | (h << 15)] on a [uint32_t]. *)
Definition rotate_right_17 (h : Z) : Z :=
  u32 (Z.lor (Z.shiftr h 17) (Z.shiftl h 15)).

(** [array[bitpos/8] |= (1 << (bitpos % 8))], where [array] starts at
    offset [init_size] of [dst]. *)
Definition or_bit (init_size : nat) (bitpos : Z) (dst : list byte) : option (list byte) :=
  let i := (init_size + Z.to_nat (bitpos / 8))%nat in
  c ← dst !! i;
  Some (<[i := to_char (Z.lor (char_val char_signed c) (Z.shiftl 1 (bitpos mod 8)))]> dst).

(** [for (size_t j = 0; j < k_; j++)] of [CreateFilter]; [j] counts the
    rounds that are left. *)
Fixpoint set_probes (init_size : nat) (bits delta : Z) (j : nat) (h : Z)
    (dst : list byte) : option (list byte) :=
  match j with
  | O => Some dst
  | S j' =>
      if bits =? 0 then None else
      let bitpos := u32 (h mod bits) in
      dst ← or_bit init_size bitpos dst;
      set_probes init_size bits delta j' (u32 (h + delta)) dst
  end.

(** [for (int i = 0; i < n; i++)] of [CreateFilter]; [count] rounds are
    left and [i] is the loop variable. *)
Fixpoint add_keys (this : BloomFilter) (keys : list K) (init_size : nat) (bits : Z)
    (count i : nat) (dst : list byte) : option (list byte) :=
  match count with
  | O => Some dst
  | S count' =>
      key ← keys !! i;
      let h := BloomHash key in
      let delta := rotate_right_17 h in
      dst ← set_probes init_size bits delta (Z.to_nat (k_ this)) h dst;
      add_keys this keys init_size bits count' (S i) dst
  end.

Definition CreateFilter (this : BloomFilter) (keys : list K) (n : Z)
    (dst : list byte) : option (list byte) :=
  let bits := size_t (size_t n * bits_per_key_ this) in
  let bits := if bits <? 64 then 64 else bits in
  let bytes := size_t (bits + 7) / 8 in
  let bits := size_t (bytes * 8) in
  let init_size := length dst in
  let dst := dst ++ replicate (Z.to_nat bytes) x00 in
  let dst := dst ++ [to_char (k_ this)] in
  add_keys this keys init_size bits (Z.to_nat n) 0 dst.

(** [for (size_t j = 0; j < k; j++)] of [KeyMayMatch]. *)
Fixpoint test_probes (array : list byte) (bits delta : Z) (j : nat) (h : Z)
    : option bool :=
  match j with
  | O => Some true
  | S j' =>
      if bits =? 0 then None else
      let bitpos := u32 (h mod bits) in
      c ← array !! Z.to_nat (bitpos / 8);
      if Z.land (char_val char_signed c) (Z.shiftl 1 (bitpos mod 8)) =? 0
      then Some false
      else test_probes array bits delta j' (u32 (h + delta))
  end.

Definition KeyMayMatch (this : BloomFilter) (key : K) (bloom_filter : list byte)
    : option bool :=
  let len := Z.of_nat (length bloom_filter) in
  if len <? 2 then Some false else
  let array := bloom_filter in
  let bits := size_t ((len - 1) * 8) in
  c ← array !! Z.to_nat (len - 1);
  let k := size_t (char_val char_signed c) in
  if 30 <? k then Some true else
  let h := BloomHash key in
  let delta := rotate_right_17 h in
  test_probes array bits delta (Z.to_nat k) h.

End Filter.

(** ** Notions the statements are written with *)

(** Bit [q] of a bit array stored low bit first, one byte per eight bits. *)
Definition bit_at (array : list byte) (q : Z) : bool :=
  match array !! Z.to_nat (q / 8) with
  | Some c => Z.testbit (uchar c) (q mod 8)
  | None => false
  end.

(** Position of probe [j] under double hashing with 32-bit wrap-around. *)
Definition probe_pos (bits h delta : Z) (j : nat) : Z :=
  ((h + Z.of_nat j * delta) mod 2 ^ 32) mod bits.

Definition key_probe {K : Type} `{BloomKey K} (bits : Z) (key : K) (j : nat) : Z :=
  probe_pos bits (BloomHash key) (rotate_right_17 (BloomHash key)) j.

(** Ceiling of [x / d] for positive [d]. *)
Definition ceil_div (x d : Z) : Z := - ((- x) / d).

(** Size of the bit array in bytes for [n] keys. *)
Definition filter_bytes (n bits_per_key : Z) : Z :=
  ceil_div (Z.max (n * bits_per_key) 64) 8.

(** The clamp of the probe count to the inclusive range 1..30. *)
Definition clamp_probes (k : Z) : Z := Z.min 30 (Z.max 1 k).

(** The probe count as the prose of the specification derives it:
    the floor of [bits_per_key * ln 2], clamped. *)
Definition spec_num_probes (bits_per_key : Z) : Z :=
  clamp_probes (Int_part (IZR bits_per_key * ln 2)).

(** The integer mantissa of [double_0_69]. *)
Definition mant_0_69 : Z := 6214967485771284.

(** * Properties *)

(** ** Machine integers and characters *)

Lemma u32_range z : 0 <= u32 z < 2 ^ 32.
Proof. apply Z.mod_pos_bound. reflexivity. Qed.

Lemma u32_small z : 0 <= z < 2 ^ 32 -> u32 z = z.
Proof. apply Z.mod_small. Qed.

Lemma uchar_range c : 0 <= uchar c < 256.
Proof. unfold uchar. pose proof (Byte.to_N_bounded c). lia. Qed.

Lemma uchar_to_char z : uchar (to_char z) = z mod 256.
Proof.
  unfold to_char, uchar.
  pose proof (Z.mod_pos_bound z 256 eq_refl) as Hz.
  destruct (Byte.of_N (Z.to_N (z mod 256))) as [c|] eqn:E; simpl.
  - apply Byte.to_of_N in E. rewrite E. lia.
  - apply Byte.of_N_None_iff in E. lia.
Qed.

(** The low eight bits of a [char] do not depend on its signedness. *)
Lemma char_val_testbit sgn c i :
  0 <= i < 8 -> Z.testbit (char_val sgn c) i = Z.testbit (uchar c) i.
Proof.
  intros Hi. unfold char_val.
  destruct (sgn && (128 <=? uchar c)); [|reflexivity].
  rewrite <- (Z.mod_pow2_bits_low (uchar c - 256) 8 i) by lia.
  rewrite <- (Z.mod_pow2_bits_low (uchar c) 8 i) by lia.
  f_equal. change (2 ^ 8) with 256.
  replace (uchar c - 256) with (uchar c + (-1) * 256) by lia.
  apply Z.mod_add. lia.
Qed.

(** What [KeyMayMatch] reads as the probe count [k]. *)
Lemma probe_count_of_char sgn c :
  (30 <? size_t (char_val sgn c)) = (30 <? uchar c)
  /\ (uchar c <= 30 -> size_t (char_val sgn c) = uchar c).
Proof.
  pose proof (uchar_range c) as Hc. unfold char_val, size_t.
  destruct (sgn && (128 <=? uchar c)) eqn:E.
  - apply andb_true_iff in E as [_ E]. apply Z.leb_le in E.
    replace ((uchar c - 256) mod 2 ^ 64) with (2 ^ 64 - 256 + uchar c).
    + split; [|lia].
      destruct (Z.ltb_spec 30 (uchar c)), (Z.ltb_spec 30 (2 ^ 64 - 256 + uchar c)); lia.
    + apply (Z.mod_unique _ _ (-1)); lia.
  - rewrite Z.mod_small by lia. split; [reflexivity|lia].
Qed.

Lemma shiftl_1_testbit b i :
  0 <= b -> 0 <= i -> Z.testbit (Z.shiftl 1 b) i = (i =? b).
Proof.
  intros Hb Hi. rewrite Z.shiftl_1_l.
  destruct (Z.eqb_spec i b) as [->|Hne].
  - apply Z.pow2_bits_true; lia.
  - apply Z.pow2_bits_false; lia.
Qed.

(** [c |= (1 << b)] sets bit [b] of the byte and nothing else. *)
Lemma or_bit_testbit sgn c b i :
  0 <= b < 8 -> 0 <= i < 8 ->
  Z.testbit (uchar (to_char (Z.lor (char_val sgn c) (Z.shiftl 1 b)))) i
  = Z.testbit (uchar c) i || (i =? b).
Proof.
  intros Hb Hi. rewrite uchar_to_char. change 256 with (2 ^ 8).
  rewrite Z.mod_pow2_bits_low by lia.
  rewrite Z.lor_spec, char_val_testbit, shiftl_1_testbit by lia. reflexivity.
Qed.

(** [(c & (1 << b)) == 0] tests bit [b] of the byte. *)
Lemma and_bit_test sgn c b :
  0 <= b < 8 ->
  (Z.land (char_val sgn c) (Z.shiftl 1 b) =? 0) = negb (Z.testbit (uchar c) b).
Proof.
  intros Hb. rewrite <- (char_val_testbit sgn c b) by lia.
  generalize (char_val sgn c); intros x.
  destruct (Z.testbit x b) eqn:E; simpl.
  - apply Z.eqb_neq. intros Hz.
    assert (Z.testbit (Z.land x (Z.shiftl 1 b)) b = false) as Hf
      by (rewrite Hz; apply Z.bits_0).
    rewrite Z.land_spec, E, shiftl_1_testbit, Z.eqb_refl in Hf by lia. discriminate.
  - apply Z.eqb_eq. apply Z.bits_inj'. intros i Hi.
    rewrite Z.land_spec, Z.bits_0, shiftl_1_testbit by lia.
    destruct (Z.eqb_spec i b) as [->|]; [rewrite E|]; apply andb_false_r || reflexivity.
Qed.

Lemma ceil_div_8 x : ceil_div x 8 = (x + 7) / 8.
Proof. unfold ceil_div. Z.div_mod_to_equations. lia. Qed.

(** [ceil_div] is the ceiling: the least [q] with [x <= 8 * q]. *)
Lemma ceil_div_8_spec x : 8 * (ceil_div x 8 - 1) < x <= 8 * ceil_div x 8.
Proof. unfold ceil_div. Z.div_mod_to_equations. lia. Qed.

(** ** The hash is a 32-bit value *)

Lemma lxor_shiftr_range h s :
  0 <= h < 2 ^ 32 -> 0 <= s -> 0 <= Z.lxor h (Z.shiftr h s) < 2 ^ 32.
Proof.
  intros Hh Hs.
  assert (0 <= Z.shiftr h s) as Hsh by (apply Z.shiftr_nonneg; lia).
  assert (0 <= Z.lxor h (Z.shiftr h s)) as Hx by (apply Z.lxor_nonneg; lia).
  split; [assumption|].
  destruct (Z.eq_dec h 0) as [->|Hne]; [rewrite Z.shiftr_0_l; reflexivity|].
  destruct (Z.eq_dec (Z.lxor h (Z.shiftr h s)) 0) as [->|Hne']; [reflexivity|].
  apply Z.log2_lt_pow2; [lia|].
  pose proof (Z.log2_lxor h (Z.shiftr h s) ltac:(lia) Hsh) as Hl.
  assert (Z.log2 h < 32) by (apply Z.log2_lt_pow2; lia).
  assert (Z.log2 (Z.shiftr h s) <= Z.log2 h).
  { rewrite Z.log2_shiftr by lia. pose proof (Z.log2_nonneg h). lia. }
  lia.
Qed.

Lemma Hash_mix_range h : 0 <= Hash_mix h < 2 ^ 32.
Proof.
  unfold Hash_mix. apply lxor_shiftr_range; [apply u32_range|unfold Hash_r; lia].
Qed.

Lemma Hash_words_range n :
  forall data h, (length data <= n)%nat -> 0 <= h < 2 ^ 32 ->
  0 <= fst (Hash_words data h) < 2 ^ 32.
Proof.
  induction n as [|n IH]; intros data h Hlen Hh.
  - destruct data; [exact Hh|simpl in Hlen; lia].
  - destruct data as [|b0 [|b1 [|b2 [|b3 rest]]]]; try exact Hh.
    cbn [Hash_words]. apply IH; [simpl in Hlen; lia|].
    apply lxor_shiftr_range; [apply u32_range|lia].
Qed.

Lemma Hash_range data seed : 0 <= Hash data seed < 2 ^ 32.
Proof.
  unfold Hash.
  pose proof (Hash_words_range (length data) data
                (u32 (Z.lxor seed (size_t (Z.of_nat (length data) * Hash_m))))
                (le_n _) (u32_range _)) as Hw.
  destruct (Hash_words data _) as [h tail]. simpl in Hw.
  destruct tail as [|b0 [|b1 [|b2 [|b3 rest]]]]; try exact Hw; apply Hash_mix_range.
Qed.

(** The two overloads of [BloomHash]. *)
#[export] Instance BloomKey_string : BloomKey (list byte) :=
  {| BloomHash := BloomHash_string;
     BloomHash_u32 := fun key => Hash_range key bloom_seed |}.

#[export] Instance BloomKey_uint64 : BloomKey Z :=
  {| BloomHash := BloomHash_uint64;
     BloomHash_u32 := fun key => Hash_range (le_bytes 8 key) bloom_seed |}.

(** ** Probe positions *)

Lemma probe_pos_0 bits h delta :
  0 < bits -> 0 <= h < 2 ^ 32 -> u32 (h mod bits) = probe_pos bits h delta 0.
Proof.
  intros Hb Hh. unfold probe_pos. rewrite Z.mul_0_l, Z.add_0_r.
  rewrite (Z.mod_small h (2 ^ 32)) by lia.
  apply u32_small. pose proof (Z.mod_pos_bound h bits Hb).
  assert (h mod bits <= h) by (apply Z.mod_le; lia). lia.
Qed.

Lemma probe_pos_S bits h delta j :
  probe_pos bits (u32 (h + delta)) delta j = probe_pos bits h delta (S j).
Proof.
  unfold probe_pos, u32. f_equal. rewrite Zplus_mod_idemp_l. f_equal. lia.
Qed.

Lemma probe_pos_range bits h delta j : 0 < bits -> 0 <= probe_pos bits h delta j < bits.
Proof. intros. apply Z.mod_pos_bound. lia. Qed.

Lemma bitpos_split q p :
  0 <= q -> 0 <= p ->
  (q =? p) = (Z.to_nat (q / 8) =? Z.to_nat (p / 8))%nat && (q mod 8 =? p mod 8).
Proof.
  intros Hq Hp.
  pose proof (Z.div_mod q 8 ltac:(lia)). pose proof (Z.div_mod p 8 ltac:(lia)).
  pose proof (Z.div_pos q 8 Hq ltac:(lia)). pose proof (Z.div_pos p 8 Hp ltac:(lia)).
  destruct (Z.eqb_spec q p) as [->|Hne].
  - rewrite Nat.eqb_refl, Z.eqb_refl. reflexivity.
  - symmetry. apply andb_false_iff.
    destruct (Nat.eqb_spec (Z.to_nat (q / 8)) (Z.to_nat (p / 8))) as [E|];
      [right|left; reflexivity].
    apply Z.eqb_neq. intros E'. apply Hne. apply Z2Nat.inj in E; lia.
Qed.

Lemma bit_at_replicate_0 n q : bit_at (replicate n x00) q = false.
Proof.
  unfold bit_at. destruct (replicate n x00 !! _) as [c|] eqn:E; [|reflexivity].
  apply lookup_replicate in E as [-> _]. apply Z.bits_0.
Qed.

(** A byte index derived from an in-range bit position is in range. *)
Lemma byte_index_range (bitpos len : Z) :
  0 <= bitpos < 8 * len -> 0 <= bitpos / 8 < len.
Proof.
  intros Hb. split; [apply Z.div_pos; lia|apply Z.div_lt_upper_bound; lia].
Qed.

(** ** The loops of [CreateFilter] *)

Section Construction.
Context {K : Type} `{BloomKey K}.
Variable sgn : bool.

Lemma or_bit_spec (pre arr post : list byte) bitpos :
  0 <= bitpos < 8 * Z.of_nat (length arr) ->
  exists arr',
    or_bit sgn (length pre) bitpos (pre ++ arr ++ post) = Some (pre ++ arr' ++ post)
    /\ length arr' = length arr
    /\ forall q, 0 <= q -> bit_at arr' q = bit_at arr q || (q =? bitpos).
Proof.
  intros Hb. unfold or_bit.
  pose proof (byte_index_range _ _ Hb) as Hidx.
  assert (Z.to_nat (bitpos / 8) < length arr)%nat as Hi by lia.
  destruct (lookup_lt_is_Some_2 arr _ Hi) as [c Hc].
  rewrite lookup_app_r, Nat.add_comm, Nat.add_sub by lia.
  rewrite (lookup_app_l arr post), Hc by lia. simpl.
  eexists. split; [|split].
  - rewrite Nat.add_comm, insert_app_r, insert_app_l by lia. reflexivity.
  - apply length_insert.
  - intros q Hq. unfold bit_at. rewrite (bitpos_split q bitpos) by lia.
    destruct (Nat.eqb_spec (Z.to_nat (q / 8)) (Z.to_nat (bitpos / 8))) as [E|Hne].
    + rewrite E, list_lookup_insert_eq, Hc by lia. simpl.
      apply or_bit_testbit; apply Z.mod_pos_bound; lia.
    + rewrite list_lookup_insert_ne by congruence. simpl.
      symmetry. apply orb_false_r.
Qed.

Lemma set_probes_spec (pre post : list byte) bits delta j :
  forall h (arr : list byte),
  0 < bits -> bits = 8 * Z.of_nat (length arr) -> 0 <= h < 2 ^ 32 ->
  exists arr',
    set_probes sgn (length pre) bits delta j h (pre ++ arr ++ post)
    = Some (pre ++ arr' ++ post)
    /\ length arr' = length arr
    /\ forall q, 0 <= q ->
         (bit_at arr' q = true <->
          bit_at arr q = true \/ exists i, (i < j)%nat /\ q = probe_pos bits h delta i).
Proof.
  induction j as [|j IH]; intros h arr Hbits Hlen Hh; simpl.
  - exists arr. split; [reflexivity|]. split; [reflexivity|].
    intros q _. split; [auto|]. intros [Hq|(i & Hi & _)]; [assumption|lia].
  - destruct (Z.eqb_spec bits 0) as [|_]; [lia|].
    rewrite (probe_pos_0 bits h delta) by assumption.
    pose proof (probe_pos_range bits h delta 0 Hbits) as Hp.
    destruct (or_bit_spec pre arr post (probe_pos bits h delta 0))
      as (arr1 & -> & Hl1 & Hb1); [lia|].
    simpl.
    destruct (IH (u32 (h + delta)) arr1) as (arr2 & -> & Hl2 & Hb2);
      [assumption|lia|apply u32_range|].
    exists arr2. split; [reflexivity|]. split; [lia|].
    intros q Hq. rewrite Hb2, Hb1, orb_true_iff, Z.eqb_eq by assumption.
    setoid_rewrite probe_pos_S. split.
    + intros [[Hq'| ->]|(i & Hi & ->)];
        [auto|right; exists 0%nat|right; exists (S i)]; split; auto; lia.
    + intros [Hq'|(i & Hi & ->)]; [auto|]. destruct i as [|i]; [auto|].
      right. exists i. split; [lia|reflexivity].
Qed.

Lemma add_keys_spec this (keys : list K) (pre post : list byte) bits count :
  forall i (arr : list byte),
  (i + count <= length keys)%nat ->
  0 < bits -> bits = 8 * Z.of_nat (length arr) ->
  exists arr',
    add_keys sgn this keys (length pre) bits count i (pre ++ arr ++ post)
    = Some (pre ++ arr' ++ post)
    /\ length arr' = length arr
    /\ forall q, 0 <= q ->
         (bit_at arr' q = true <->
          bit_at arr q = true \/
          exists i' key j, (i <= i' < i + count)%nat /\ keys !! i' = Some key /\
                           (j < Z.to_nat (k_ this))%nat /\ q = key_probe bits key j).
Proof.
  induction count as [|count IH]; intros i arr Hi Hbits Hlen; simpl.
  - exists arr. split; [reflexivity|]. split; [reflexivity|].
    intros q _. split; [auto|]. intros [Hq|(i' & _ & _ & ? & _)]; [assumption|lia].
  - destruct (lookup_lt_is_Some_2 keys i) as [key Hkey]; [lia|].
    rewrite Hkey. simpl.
    destruct (set_probes_spec pre post bits (rotate_right_17 (BloomHash key))
                (Z.to_nat (k_ this)) (BloomHash key) arr)
      as (arr1 & -> & Hl1 & Hb1); [assumption|assumption|apply BloomHash_u32|].
    simpl.
    destruct (IH (S i) arr1) as (arr2 & -> & Hl2 & Hb2); [lia|assumption|lia|].
    exists arr2. split; [reflexivity|]. split; [lia|].
    intros q Hq. rewrite Hb2, Hb1 by assumption. split.
    + intros [[Hq'|(j & Hj & ->)]|(i' & key' & j & Hi' & Hk' & Hj & ->)]; [auto|right..].
      * exists i, key, j. repeat split; auto; lia.
      * exists i', key', j. repeat split; auto; lia.
    + intros [Hq'|(i' & key' & j & Hi' & Hk' & Hj & ->)]; [auto|].
      destruct (decide (i' = i)) as [->|Hne].
      * left. right. exists j. split; [assumption|].
        rewrite Hkey in Hk'. injection Hk' as <-. reflexivity.
      * right. exists i', key', j. repeat split; auto; lia.
Qed.

(** What a run of [CreateFilter] on [n] keys without overflow of the
    [size_t] arithmetic produces. *)
Lemma CreateFilter_spec this (keys : list K) n (dst : list byte) :
  0 <= n <= Z.of_nat (length keys) ->
  n < 2 ^ 64 ->
  0 <= bits_per_key_ this ->
  n * bits_per_key_ this + 7 < 2 ^ 64 ->
  exists arr,
    CreateFilter sgn this keys n dst = Some (dst ++ arr ++ [to_char (k_ this)])
    /\ Z.of_nat (length arr) = filter_bytes n (bits_per_key_ this)
    /\ 8 <= filter_bytes n (bits_per_key_ this) < 2 ^ 61
    /\ forall q, 0 <= q ->
         (bit_at arr q = true <->
          exists i key j, (i < Z.to_nat n)%nat /\ keys !! i = Some key /\
                          (j < Z.to_nat (k_ this))%nat /\
                          q = key_probe (8 * filter_bytes n (bits_per_key_ this)) key j).
Proof.
  intros Hn Hn64 Hbpk Hov. unfold CreateFilter, filter_bytes. rewrite ceil_div_8.
  set (bpk := bits_per_key_ this) in *.
  assert (0 <= n * bpk) by nia.
  assert (size_t n = n) as -> by (apply Z.mod_small; lia).
  assert (size_t (n * bpk) = n * bpk) as -> by (apply Z.mod_small; lia).
  assert ((if n * bpk <? 64 then 64 else n * bpk) = Z.max (n * bpk) 64) as ->
    by (destruct (Z.ltb_spec (n * bpk) 64); lia).
  assert (size_t (Z.max (n * bpk) 64 + 7) = Z.max (n * bpk) 64 + 7) as ->
    by (apply Z.mod_small; lia).
  set (bytes := (Z.max (n * bpk) 64 + 7) / 8).
  assert (8 <= bytes) as Hfb8 by (subst bytes; apply Z.div_le_lower_bound; lia).
  assert (bytes * 8 < 2 ^ 64) as Hfb64.
  { subst bytes.
    pose proof (Z.mul_div_le (Z.max (n * bpk) 64 + 7) 8 ltac:(lia)). lia. }
  assert (size_t (bytes * 8) = 8 * bytes) as ->
    by (unfold size_t; rewrite Z.mod_small; lia).
  rewrite <- app_assoc.
  destruct (add_keys_spec this keys dst [to_char (k_ this)] (8 * bytes)
              (Z.to_nat n) 0 (replicate (Z.to_nat bytes) x00))
    as (arr & Harr & Hl & Hb); [lia|lia|rewrite length_replicate; lia|].
  exists arr. split; [exact Harr|]. split; [rewrite Hl, length_replicate; lia|].
  split; [lia|].
  intros q Hq. rewrite Hb, bit_at_replicate_0 by assumption. split.
  - intros [?|(i & key & j & Hi & ?)]; [discriminate|].
    exists i, key, j. split; [lia|assumption].
  - intros (i & key & j & Hi & ?). right. exists i, key, j. split; [lia|assumption].
Qed.

(** Frame: whatever the arguments, a run that returns leaves the first
    [init_size] bytes and the length of the buffer as they were. *)
Lemma or_bit_frame init_size bitpos (dst dst' : list byte) :
  or_bit sgn init_size bitpos dst = Some dst' ->
  take init_size dst' = take init_size dst /\ length dst' = length dst.
Proof.
  unfold or_bit. destruct (dst !! _) as [c|]; simpl; [|discriminate].
  intros [= <-]. split; [|apply length_insert].
  apply take_insert_ge. lia.
Qed.

Lemma set_probes_frame init_size bits delta j :
  forall h (dst dst' : list byte),
  set_probes sgn init_size bits delta j h dst = Some dst' ->
  take init_size dst' = take init_size dst /\ length dst' = length dst.
Proof.
  induction j as [|j IH]; intros h dst dst'; simpl.
  - intros [= <-]. split; reflexivity.
  - destruct (bits =? 0); [discriminate|].
    destruct (or_bit sgn init_size _ dst) as [dst1|] eqn:E1; simpl; [|discriminate].
    intros E2. apply or_bit_frame in E1 as [E1 E1']. apply IH in E2 as [E2 E2'].
    split; congruence.
Qed.

Lemma add_keys_frame this (keys : list K) init_size bits count :
  forall i (dst dst' : list byte),
  add_keys sgn this keys init_size bits count i dst = Some dst' ->
  take init_size dst' = take init_size dst /\ length dst' = length dst.
Proof.
  induction count as [|count IH]; intros i dst dst'; simpl.
  - intros [= <-]. split; reflexivity.
  - destruct (keys !! i) as [key|]; simpl; [|discriminate].
    destruct (set_probes sgn init_size bits _ _ _ dst) as [dst1|] eqn:E1; simpl;
      [|discriminate].
    intros E2. apply set_probes_frame in E1 as [E1 E1']. apply IH in E2 as [E2 E2'].
    split; congruence.
Qed.

Lemma CreateFilter_frame this (keys : list K) n (dst dst' : list byte) :
  CreateFilter sgn this keys n dst = Some dst' ->
  exists filter, dst' = dst ++ filter.
Proof.
  unfold CreateFilter. intros E. apply add_keys_frame in E as [E _].
  exists (drop (length dst) dst').
  rewrite <- (take_drop (length dst) dst') at 1. f_equal.
  rewrite E, <- app_assoc, take_app_length. reflexivity.
Qed.
End Construction.

(** ** The loop of [KeyMayMatch] *)

Section Query.
Context {K : Type} `{BloomKey K}.
Variable sgn : bool.

(** The loop never reads out of bounds, and answers [true] exactly when
    every probed bit is set. *)
Lemma test_probes_spec (arr post : list byte) bits delta j :
  forall h,
  0 < bits -> bits = 8 * Z.of_nat (length arr) -> 0 <= h < 2 ^ 32 ->
  exists b,
    test_probes sgn (arr ++ post) bits delta j h = Some b
    /\ (b = true <->
        forall i, (i < j)%nat -> bit_at arr (probe_pos bits h delta i) = true).
Proof.
  induction j as [|j IH]; intros h Hbits Hlen Hh; simpl.
  - exists true. split; [reflexivity|]. split; [intros _ i Hi; lia|reflexivity].
  - destruct (Z.eqb_spec bits 0) as [|_]; [lia|].
    rewrite (probe_pos_0 bits h delta) by assumption.
    pose proof (probe_pos_range bits h delta 0 Hbits) as Hp.
    set (bitpos := probe_pos bits h delta 0) in *.
    pose proof (byte_index_range bitpos (Z.of_nat (length arr)) ltac:(lia)) as Hidx.
    destruct (lookup_lt_is_Some_2 arr (Z.to_nat (bitpos / 8))) as [c Hc]; [lia|].
    rewrite (lookup_app_l_Some _ _ _ _ Hc). simpl.
    rewrite and_bit_test by (apply Z.mod_pos_bound; lia).
    assert (bit_at arr bitpos = Z.testbit (uchar c) (bitpos mod 8)) as Hbit
      by (unfold bit_at; rewrite Hc; reflexivity).
    destruct (Z.testbit (uchar c) (bitpos mod 8)); simpl.
    + destruct (IH (u32 (h + delta))) as (b & -> & Hb);
        [assumption|assumption|apply u32_range|].
      exists b. split; [reflexivity|]. rewrite Hb.
      setoid_rewrite probe_pos_S. split.
      * intros Hall [|i] Hi; [exact Hbit|apply Hall; lia].
      * intros Hall i Hi. apply Hall. lia.
    + exists false. split; [reflexivity|]. split; [discriminate|].
      intros Hall. rewrite <- Hbit. apply Hall. lia.
Qed.

(** [KeyMayMatch] on a filter whose last byte is [c]. *)
Lemma KeyMayMatch_unfold this (key : K) (arr : list byte) (c : byte) :
  (1 <= length arr)%nat ->
  KeyMayMatch sgn this key (arr ++ [c])
  = if 30 <? uchar c then Some true
    else test_probes sgn (arr ++ [c]) (size_t (8 * Z.of_nat (length arr)))
           (rotate_right_17 (BloomHash key)) (Z.to_nat (uchar c)) (BloomHash key).
Proof.
  intros Hlen. unfold KeyMayMatch. rewrite length_app. cbn [length].
  destruct (Z.ltb_spec (Z.of_nat (length arr + 1)) 2) as [|_]; [lia|].
  replace (Z.to_nat (Z.of_nat (length arr + 1) - 1)) with (length arr) by lia.
  rewrite lookup_app_r, Nat.sub_diag by lia. simpl.
  destruct (probe_count_of_char sgn c) as [-> Hk].
  destruct (Z.ltb_spec 30 (uchar c)); [reflexivity|].
  rewrite Hk by lia. do 2 f_equal. lia.
Qed.

Lemma snoc_of_last (filter : list byte) (c : byte) :
  (2 <= length filter)%nat -> last filter = Some c ->
  exists arr, filter = arr ++ [c] /\ (1 <= length arr)%nat.
Proof.
  intros Hlen Hlast. apply last_Some in Hlast as [arr ->].
  exists arr. split; [reflexivity|]. rewrite length_app in Hlen. simpl in Hlen. lia.
Qed.
End Query.

(** ** [(h >> 17) | (h << 15)] is the rotation to the right by 17 bits *)

Lemma rotate_right_17_spec h i :
  0 <= h < 2 ^ 32 -> 0 <= i < 32 ->
  Z.testbit (rotate_right_17 h) i = Z.testbit h ((i + 17) mod 32).
Proof.
  intros Hh Hi. unfold rotate_right_17, u32.
  rewrite Z.mod_pow2_bits_low, Z.lor_spec, Z.shiftr_spec, Z.shiftl_spec by lia.
  assert (forall n, 32 <= n -> Z.testbit h n = false) as Hhigh.
  { intros n Hn. destruct (Z.eq_dec h 0) as [->|Hne]; [apply Z.bits_0|].
    apply Z.bits_above_log2; [lia|].
    assert (Z.log2 h < 32) by (apply Z.log2_lt_pow2; lia). lia. }
  destruct (Z.lt_ge_cases i 15) as [Hlo|Hhi].
  - rewrite (Z.testbit_neg_r h (i - 15)), orb_false_r by lia.
    f_equal. symmetry. apply Z.mod_small. lia.
  - rewrite (Hhigh (i + 17)) by lia. simpl. f_equal.
    apply (Z.mod_unique _ _ 1); lia.
Qed.

(** ** The constructor: binary64 arithmetic of [bits_per_key * 0.69] *)

(** [double_0_69] is a binary64 number and no other one is nearer to 69/100:
    it is within half a unit in the last place. *)
Lemma double_0_69_nearest :
  valid_binary prec emax double_0_69 = true
  /\ 2 * Z.abs (100 * mant_0_69 - 69 * 2 ^ 53) <= 100.
Proof. split; [reflexivity|vm_compute; discriminate]. Qed.

Lemma digits2_pos_spec p :
  2 ^ (Z.pos (digits2_pos p) - 1) <= Z.pos p < 2 ^ Z.pos (digits2_pos p).
Proof.
  induction p as [p IH|p IH|]; simpl digits2_pos; [| |simpl; lia].
  all: rewrite Pos2Z.inj_succ.
  all: replace (Z.succ (Z.pos (digits2_pos p)) - 1)
         with (Z.succ (Z.pos (digits2_pos p) - 1)) by lia.
  all: rewrite !Z.pow_succ_r by lia; lia.
Qed.

Lemma digits2_pos_unique p d :
  2 ^ (d - 1) <= Z.pos p < 2 ^ d -> Z.pos (digits2_pos p) = d.
Proof.
  intros [Hlo Hhi]. pose proof (digits2_pos_spec p) as [Hlo' Hhi'].
  assert (0 < d) as Hd.
  { destruct (Z.ltb_spec 0 d); [assumption|].
    assert (2 ^ d <= 2 ^ 0) by (apply Z.pow_le_mono_r; lia).
    change (2 ^ 0) with 1 in *. lia. }
  destruct (Z.lt_trichotomy (Z.pos (digits2_pos p)) d) as [Hlt|[Heq|Hgt]]; [|assumption|].
  - assert (2 ^ Z.pos (digits2_pos p) <= 2 ^ (d - 1)) by (apply Z.pow_le_mono_r; lia). lia.
  - assert (2 ^ d <= 2 ^ (Z.pos (digits2_pos p) - 1)) by (apply Z.pow_le_mono_r; lia). lia.
Qed.

Lemma iter_xO_spec p k : Z.pos (Pos.iter xO p k) = Z.pos p * 2 ^ Z.pos k.
Proof.
  induction k as [|k IH] using Pos.peano_ind.
  - simpl. lia.
  - rewrite Pos.iter_succ, Pos2Z.inj_succ, Z.pow_succ_r by lia.
    rewrite Pos2Z.inj_xO, IH. lia.
Qed.

Lemma iter_pos_nat {A} (f : A -> A) (p : positive) :
  forall x : A, SpecFloat.iter_pos f p x = Nat.iter (Pos.to_nat p) f x.
Proof.
  induction p as [p IH|p IH|]; intros x; simpl SpecFloat.iter_pos.
  - rewrite !IH, Pos2Nat.inj_xI. rewrite <- Nat.iter_add, <- Nat.iter_succ_r. f_equal. lia.
  - rewrite !IH, Pos2Nat.inj_xO. rewrite <- Nat.iter_add. f_equal. lia.
  - reflexivity.
Qed.

Lemma shr_1_m r : 0 <= shr_m r -> shr_m (shr_1 r) = shr_m r / 2.
Proof.
  destruct r as [m r s]. intros Hm. cbn [shr_m] in Hm.
  destruct m as [|[p|p|]|p]; cbn [shr_1 shr_m]; try lia; try reflexivity.
  - apply (Z.div_unique _ _ _ 1); lia.
  - apply (Z.div_unique _ _ _ 0); lia.
Qed.

Lemma iter_shr_1_m k : forall r, 0 <= shr_m r ->
  shr_m (Nat.iter k shr_1 r) = shr_m r / 2 ^ Z.of_nat k.
Proof.
  induction k as [|k IH]; intros r Hr.
  - simpl. rewrite Z.div_1_r. reflexivity.
  - rewrite Nat.iter_succ_r, IH by (rewrite shr_1_m by assumption; apply Z.div_pos; lia).
    rewrite shr_1_m by assumption. rewrite Nat2Z.inj_succ, Z.pow_succ_r by lia.
    rewrite Z.div_div by lia. reflexivity.
Qed.

Lemma shr_fexp_exact m e :
  let d := Z.pos (digits2_pos m) in
  let s := Z.max 0 (d - 53) in
  -1074 <= d + e - 53 ->
  exists r, shr_fexp prec emax (Z.pos m) e loc_Exact = (r, e + s)
            /\ shr_m r = Z.pos m / 2 ^ s.
Proof.
  intros d s He. unfold shr_fexp, fexp, emin, prec, emax. simpl Zdigits2. fold d.
  replace (Z.max (d + e - 53) (3 - 1024 - 53) - e) with (d - 53) by lia.
  simpl shr_record_of_loc. unfold shr.
  destruct (d - 53) as [|q|q] eqn:E.
  - eexists. split; [f_equal; lia|]. simpl. subst s. rewrite Z.div_1_r. reflexivity.
  - eexists. split; [f_equal; lia|].
    rewrite iter_pos_nat, iter_shr_1_m by (simpl; lia). simpl shr_m.
    rewrite positive_nat_Z. subst s. rewrite Z.max_r by lia. reflexivity.
  - eexists. split; [f_equal; lia|]. simpl. subst s.
    rewrite Z.max_l by lia. rewrite Z.div_1_r. reflexivity.
Qed.

Lemma round_nearest_even_range m l :
  m <= round_nearest_even m l <= m + 1.
Proof.
  destruct l as [|[]]; simpl; try lia. destruct (Z.even m); lia.
Qed.

Lemma binary_round_aux_pos P e :
  let d := Z.pos (digits2_pos P) in
  let m1 := Z.pos P / 2 ^ (d - 53) in
  let e1 := e + (d - 53) in
  53 <= d -> -1074 <= e1 -> e1 < 971 ->
  exists m3 e3,
    binary_round_aux prec emax false (Z.pos P) e loc_Exact = S754_finite false m3 e3
    /\ ((e3 = e1 /\ m1 <= Z.pos m3 <= m1 + 1 /\ Z.pos m3 < 2 ^ 53)
        \/ (e3 = e1 + 1 /\ Z.pos m3 = 2 ^ 52 /\ m1 + 1 = 2 ^ 53)).
Proof.
  intros d m1 e1 Hd Hlo Hhi.
  destruct (shr_fexp_exact P e) as (r & Hr & Hm); [fold d; lia|]. fold d in Hr, Hm.
  rewrite Z.max_r in Hr, Hm by lia. fold m1 in Hm. fold e1 in Hr.
  assert (2 ^ 52 <= m1 < 2 ^ 53) as Hm1.
  { pose proof (digits2_pos_spec P) as [HPlo HPhi]. fold d in HPlo, HPhi.
    assert (0 < 2 ^ (d - 53)) by (apply Z.pow_pos_nonneg; lia).
    assert (2 ^ (d - 1) = 2 ^ 52 * 2 ^ (d - 53)) as E1
      by (rewrite <- Z.pow_add_r by lia; f_equal; lia).
    assert (2 ^ d = 2 ^ 53 * 2 ^ (d - 53)) as E2
      by (rewrite <- Z.pow_add_r by lia; f_equal; lia).
    subst m1. split.
    - apply Z.div_le_lower_bound; lia.
    - apply Z.div_lt_upper_bound; lia. }
  unfold binary_round_aux. rewrite Hr.
  pose proof (round_nearest_even_range (shr_m r) (loc_of_shr_record r)) as Hrne.
  rewrite Hm in Hrne |- *.
  destruct (round_nearest_even m1 (loc_of_shr_record r)) as [|p2|p2] eqn:Ep2; [lia| |lia].
  destruct (Z.ltb_spec (Z.pos p2) (2 ^ 53)) as [Hlt|Hge].
  - assert (Z.pos (digits2_pos p2) = 53) as Hd2 by (apply digits2_pos_unique; lia).
    destruct (shr_fexp_exact p2 e1) as (r' & Hr' & Hm'); [lia|].
    rewrite Hd2 in Hr', Hm'. change (Z.max 0 (53 - 53)) with 0 in Hr', Hm'. rewrite Hr'.
    rewrite Z.div_1_r in Hm'. rewrite Hm'.
    destruct (Z.leb_spec (e1 + 0) (emax - prec)) as [_|Hbad];
      [|unfold emax, prec in Hbad; lia].
    exists p2, (e1 + 0). split; [reflexivity|]. left. lia.
  - assert (Z.pos p2 = 2 ^ 53) as Hp2 by lia.
    assert (Z.pos (digits2_pos p2) = 54) as Hd2 by (apply digits2_pos_unique; lia).
    destruct (shr_fexp_exact p2 e1) as (r' & Hr' & Hm'); [lia|].
    rewrite Hd2 in Hr', Hm'. change (Z.max 0 (54 - 53)) with 1 in Hr', Hm'. rewrite Hr'.
    rewrite Hp2 in Hm'. change (2 ^ 53 / 2 ^ 1) with (Z.pos (2 ^ 52)) in Hm'. rewrite Hm'.
    destruct (Z.leb_spec (e1 + 1) (emax - prec)) as [_|Hbad];
      [|unfold emax, prec in Hbad; lia].
    exists (2 ^ 52)%positive, (e1 + 1). split; [reflexivity|]. right. lia.
Qed.

Lemma binary_round_aux_canonical s m e :
  Z.pos (digits2_pos m) = 53 -> -1074 <= e <= 971 ->
  binary_round_aux prec emax s (Z.pos m) e loc_Exact = S754_finite s m e.
Proof.
  intros Hd He.
  assert (shr_fexp prec emax (Z.pos m) e loc_Exact
          = ({| shr_m := Z.pos m; shr_r := false; shr_s := false |}, e)) as Hshr.
  { unfold shr_fexp, fexp, emin, prec, emax. simpl Zdigits2. rewrite Hd.
    replace (Z.max (53 + e - 53) (3 - 1024 - 53) - e) with 0 by lia. reflexivity. }
  unfold binary_round_aux. rewrite Hshr. simpl shr_m. simpl loc_of_shr_record.
  simpl round_nearest_even. rewrite Hshr. simpl shr_m.
  destruct (Z.leb_spec e (emax - prec)) as [_|Hbad]; [reflexivity|].
  unfold emax, prec in Hbad. lia.
Qed.

Lemma double_of_int_pos p :
  let d := Z.pos (digits2_pos p) in
  d < 53 ->
  exists mx, double_of_int (Z.pos p) = S754_finite false mx (d - 53)
             /\ Z.pos mx = Z.pos p * 2 ^ (53 - d)
             /\ Z.pos (digits2_pos mx) = 53.
Proof.
  intros d Hd.
  assert (0 < d) by (subst d; lia).
  unfold double_of_int, binary_normalize, binary_round, shl_align, fexp, emin, prec, emax.
  fold d. replace (Z.max (d + 0 - 53) (3 - 1024 - 53) - 0) with (Z.neg (Z.to_pos (53 - d)))
    by (rewrite <- Pos2Z.opp_pos, Z2Pos.id by lia; lia).
  replace (Z.max (d + 0 - 53) (3 - 1024 - 53)) with (d - 53) by lia.
  set (mx := Pos.iter xO p (Z.to_pos (53 - d))).
  assert (Z.pos mx = Z.pos p * 2 ^ (53 - d)) as Hmx
    by (subst mx; rewrite iter_xO_spec, Z2Pos.id by lia; reflexivity).
  assert (Z.pos (digits2_pos mx) = 53) as Hdx.
  { apply digits2_pos_unique. rewrite Hmx.
    pose proof (digits2_pos_spec p) as [Hlo Hhi]. fold d in Hlo, Hhi.
    assert (0 < 2 ^ (53 - d)) by (apply Z.pow_pos_nonneg; lia).
    replace (2 ^ (53 - 1)) with (2 ^ (d - 1) * 2 ^ (53 - d))
      by (rewrite <- Z.pow_add_r by lia; f_equal; lia).
    replace (2 ^ 53) with (2 ^ d * 2 ^ (53 - d))
      by (rewrite <- Z.pow_add_r by lia; f_equal; lia).
    nia. }
  exists mx. split; [|split; assumption].
  apply binary_round_aux_canonical; [assumption|lia].
Qed.

Lemma mul_0_69_trunc n :
  0 < n < 2 ^ 52 ->
  exists t,
    size_t_of_double (SFmul prec emax (double_of_int n) double_0_69) = Some t
    /\ n * mant_0_69 / 2 ^ 53 <= t < 2 ^ 64.
Proof.
  intros Hn. destruct n as [|p|p]; [lia| |lia].
  pose proof (digits2_pos_spec p) as [Hplo Hphi].
  set (d := Z.pos (digits2_pos p)) in *.
  assert (0 < d) by (subst d; lia).
  assert (d <= 52) as Hd.
  { destruct (Z.leb_spec d 52); [assumption|].
    assert (2 ^ 52 <= 2 ^ (d - 1)) by (apply Z.pow_le_mono_r; lia). lia. }
  destruct (double_of_int_pos p) as (mx & -> & Hmx & Hdx); [fold d; lia|]. fold d in Hmx |- *.
  unfold double_0_69. cbn [SFmul xorb].
  pose proof (digits2_pos_spec mx) as Hmx53. rewrite Hdx in Hmx53.
  set (P := (mx * 6214967485771284)%positive).
  assert (Z.pos P = Z.pos mx * mant_0_69) as HP by reflexivity.
  pose proof (digits2_pos_spec P) as [HPlo HPhi].
  set (dP := Z.pos (digits2_pos P)) in *.
  assert (105 <= dP <= 106) as HdP.
  { assert (2 ^ 104 <= Z.pos P < 2 ^ 106) as [? ?] by (unfold mant_0_69 in HP; nia).
    split.
    - destruct (Z.leb_spec 105 dP); [assumption|].
      assert (2 ^ dP <= 2 ^ 104) by (apply Z.pow_le_mono_r; lia). lia.
    - destruct (Z.leb_spec dP 106); [assumption|].
      assert (2 ^ 106 <= 2 ^ (dP - 1)) by (apply Z.pow_le_mono_r; lia). lia. }
  destruct (binary_round_aux_pos P (d - 53 + -53)) as (m3 & e3 & -> & Hcase);
    fold dP; [lia..|].
  fold dP in Hcase.
  set (m1 := Z.pos P / 2 ^ (dP - 53)) in *.
  set (e1 := d - 53 + -53 + (dP - 53)) in *.
  assert (e1 < 0) as He1 by (subst e1; lia).
  assert (m1 / 2 ^ (- e1) = Z.pos p * mant_0_69 / 2 ^ 53) as HT.
  { subst m1. rewrite Z.div_div by (try apply Z.pow_pos_nonneg; lia).
    rewrite <- Z.pow_add_r by lia.
    replace (dP - 53 + - e1) with (53 + (53 - d)) by (subst e1; lia).
    rewrite Z.pow_add_r by lia. rewrite HP, Hmx.
    replace (Z.pos p * 2 ^ (53 - d) * mant_0_69)
      with (Z.pos p * mant_0_69 * 2 ^ (53 - d)) by ring.
    apply Z.div_mul_cancel_r; [lia|]. apply Z.pow_nonzero; lia. }
  assert (0 < 2 ^ (- e1)) as Hpow by (apply Z.pow_pos_nonneg; lia).
  cbn [size_t_of_double].
  assert (e3 <= 0) as He3 by lia.
  assert (Z.shiftl (Z.pos m3) e3 = Z.pos m3 / 2 ^ (- e3)) as ->.
  { rewrite <- Z.shiftr_div_pow2 by lia. unfold Z.shiftr.
    rewrite Z.opp_involutive. reflexivity. }
  assert (0 < 2 ^ (- e3)) as Hpow3 by (apply Z.pow_pos_nonneg; lia).
  assert (Z.pos m3 / 2 ^ (- e3) <= Z.pos m3) as Hle.
  { apply Z.div_le_upper_bound; [lia|]. nia. }
  assert (Z.pos m3 <= 2 ^ 53) as Hm3 by lia.
  destruct (Z.ltb_spec (Z.pos m3 / 2 ^ (- e3)) (2 ^ 64)) as [Hlt|Hge]; [|lia].
  eexists. split; [reflexivity|]. split; [|assumption].
  rewrite <- HT. destruct Hcase as [(-> & Hm & _)|(-> & Hm & Hm')].
  - apply Z.div_le_mono; lia.
  - rewrite Hm.
    replace (2 ^ 52 / 2 ^ (- (e1 + 1))) with (2 ^ 53 / 2 ^ (- e1)).
    + apply Z.div_le_mono; lia.
    + replace (- e1) with (1 + (- (e1 + 1))) by lia.
      rewrite Z.pow_add_r by lia. change (2 ^ 53) with (2 ^ 1 * 2 ^ 52).
      apply Z.div_mul_cancel_l; [|lia]. apply Z.pow_nonzero; lia.
Qed.

Lemma BloomFilter_ctor_spec bpk :
  0 <= bpk <= INT_MAX ->
  BloomFilter_ctor bpk
  = Some {| bits_per_key_ := bpk; k_ := clamp_probes (69 * bpk / 100) |}.
Proof.
  intros Hb. unfold INT_MAX in Hb.
  destruct (Z.ltb_spec bpk 45) as [Hsmall|Hbig].
  - assert (exists k : nat, bpk = Z.of_nat k /\ (k < 45)%nat) as (k & -> & Hk)
      by (exists (Z.to_nat bpk); lia).
    do 45 (destruct k as [|k]; [vm_compute; reflexivity|]). lia.
  - unfold BloomFilter_ctor.
    destruct (mul_0_69_trunc bpk) as (t & -> & Ht); [lia|]. cbn [mbind option_bind].
    assert (31 <= bpk * mant_0_69 / 2 ^ 53)
      by (apply Z.div_le_lower_bound; unfold mant_0_69; lia).
    assert (31 <= 69 * bpk / 100) by (apply Z.div_le_lower_bound; lia).
    destruct (Z.ltb_spec t 1); [lia|]. destruct (Z.ltb_spec 30 t); [|lia].
    unfold clamp_probes. f_equal. f_equal; [apply Z.mod_small; lia|lia].
Qed.

(** A policy made from a non-negative [int] keeps its [bits_per_key] and
    has between 1 and 30 probes. *)
Lemma BloomFilter_ctor_ok bpk :
  0 <= bpk <= INT_MAX ->
  exists this,
    BloomFilter_ctor bpk = Some this
    /\ bits_per_key_ this = bpk /\ 1 <= k_ this <= 30.
Proof.
  intros Hb. rewrite BloomFilter_ctor_spec by assumption.
  eexists. split; [reflexivity|]. simpl. unfold clamp_probes. lia.
Qed.

(** ** Bounds on [ln 2] *)

Section Ln2.
Local Open Scope R_scope.

Lemma exp_pow_nat x n : exp (INR n * x) = exp x ^ n.
Proof.
  induction n as [|n IH].
  - simpl. rewrite Rmult_0_l. apply exp_0.
  - rewrite S_INR, Rmult_plus_distr_r, Rmult_1_l, exp_plus, IH. simpl. ring.
Qed.

Lemma pow_lower_bound (a b : Z) (n : nat) x :
  (0 < b)%Z -> (0 <= a)%Z ->
  IZR a / IZR b <= x ->
  IZR (a ^ Z.of_nat n) / IZR (b ^ Z.of_nat n) <= x ^ n.
Proof.
  intros Hb Ha Hx.
  assert (0 < IZR b) by (apply IZR_lt; assumption).
  assert (0 <= IZR a) by (apply IZR_le; assumption).
  rewrite <- !pow_IZR.
  replace (IZR a ^ n / IZR b ^ n) with ((IZR a / IZR b) ^ n).
  - apply pow_incr. split; [|assumption].
    apply Rmult_le_pos; [assumption|]. left. apply Rinv_0_lt_compat. assumption.
  - unfold Rdiv. rewrite Rpow_mult_distr, pow_inv. reflexivity.
Qed.

Lemma exp_lower (a b : Z) (n : nat) (c d : Z) x :
  (0 < b)%Z -> (0 <= a)%Z -> (0 < d)%Z ->
  IZR a / IZR b <= 1 + x / INR n ->
  (n <> 0)%nat ->
  (c * b ^ Z.of_nat n < d * a ^ Z.of_nat n)%Z ->
  IZR c / IZR d < exp x.
Proof.
  intros Hb Ha Hd Hx Hn Hlt.
  assert (0 < INR n) by (apply lt_0_INR; lia).
  replace x with (INR n * (x / INR n)) by (field; lra).
  rewrite exp_pow_nat.
  eapply Rlt_le_trans; [|apply (pow_lower_bound a b n)]; try assumption.
  - assert (0 < IZR d) by (apply IZR_lt; assumption).
    assert (0 < IZR (b ^ Z.of_nat n)) by (apply IZR_lt; apply Z.pow_pos_nonneg; lia).
    apply IZR_lt in Hlt. rewrite !mult_IZR in Hlt.
    apply Rmult_lt_reg_r with (IZR d * IZR (b ^ Z.of_nat n)).
    + apply Rmult_lt_0_compat; assumption.
    + field_simplify; lra.
  - eapply Rle_trans; [exact Hx|]. apply exp_ineq1_le.
Qed.

Lemma ln2_lower : 9 / 13 < ln 2.
Proof.
  apply exp_lt_inv. rewrite exp_ln by lra.
  assert (1 / 2 < exp (- (9 / 13))) as H.
  { apply (exp_lower 6647 6656 512 1 2);
      [lia|lia|lia| |lia|vm_compute; reflexivity].
    rewrite INR_IZR_INZ. change (Z.of_nat 512) with 512%Z. lra. }
  pose proof (exp_plus (9 / 13) (- (9 / 13))) as E.
  rewrite Rplus_opp_r, exp_0 in E.
  pose proof (exp_pos (9 / 13)). nra.
Qed.

Lemma ln2_upper : ln 2 < 10 / 13.
Proof.
  apply exp_lt_inv. rewrite exp_ln by lra.
  change 2 with (IZR 2). replace (IZR 2) with (IZR 2 / IZR 1) by (simpl; lra).
  apply (exp_lower 62 52 4 2 1); [lia|lia|lia| |lia|vm_compute; reflexivity].
  rewrite INR_IZR_INZ. change (Z.of_nat 4) with 4%Z. lra.
Qed.

Lemma floor_13_ln2 : Int_part (13 * ln 2) = 9%Z.
Proof.
  symmetry. apply Int_part_spec.
  pose proof ln2_lower. pose proof ln2_upper. lra.
Qed.
End Ln2.

(** ** A key that was inserted is found, whatever instance asks *)

Lemma inserted_key_matches {K : Type} `{BloomKey K} (sgn : bool)
    (this that : BloomFilter) (keys : list K) (n : Z) (dst : list byte)
    (key : K) (i : nat) :
  0 <= n <= Z.of_nat (length keys) ->
  n < 2 ^ 64 ->
  0 <= bits_per_key_ this ->
  n * bits_per_key_ this + 7 < 2 ^ 64 ->
  0 <= k_ this <= 30 ->
  (i < Z.to_nat n)%nat -> keys !! i = Some key ->
  exists filter,
    CreateFilter sgn this keys n dst = Some (dst ++ filter)
    /\ KeyMayMatch sgn that key filter = Some true.
Proof.
  intros Hn Hn64 Hbpk Hov Hk Hi Hkey.
  destruct (CreateFilter_spec sgn this keys n dst Hn Hn64 Hbpk Hov)
    as (arr & Hcf & Hlen & Hfb & Hbits).
  exists (arr ++ [to_char (k_ this)]). split; [exact Hcf|].
  rewrite KeyMayMatch_unfold by lia.
  rewrite uchar_to_char, Z.mod_small by lia.
  destruct (Z.ltb_spec 30 (k_ this)) as [|_]; [lia|].
  rewrite Hlen. unfold size_t. rewrite Z.mod_small by lia.
  destruct (test_probes_spec sgn arr [to_char (k_ this)]
              (8 * filter_bytes n (bits_per_key_ this))
              (rotate_right_17 (BloomHash key)) (Z.to_nat (k_ this)) (BloomHash key))
    as (b & -> & Hb); [lia|lia|apply BloomHash_u32|].
  f_equal. apply Hb. intros j Hj. apply Hbits.
  - apply probe_pos_range. lia.
  - exists i, key, j. repeat split; assumption.
Qed.

(** * The model on concrete inputs *)

(** The values that LevelDB's own test of this hash function expects. *)
Example Hash_empty : Hash [] bloom_seed = 0xbc9f1d34.
Proof. vm_compute. reflexivity. Qed.

Example Hash_one_byte : Hash [x62] bloom_seed = 0xef1345c4.
Proof. vm_compute. reflexivity. Qed.

Example Hash_two_bytes : Hash [xc3; x97] bloom_seed = 0x5b663814.
Proof. vm_compute. reflexivity. Qed.

Example Hash_three_bytes : Hash [xe2; x99; xa5] bloom_seed = 0x323c078f.
Proof. vm_compute. reflexivity. Qed.

Example Hash_four_bytes : Hash [xe1; x80; xb9; x32] bloom_seed = 0xed21633a.
Proof. vm_compute. reflexivity. Qed.

Example le_bytes_uint64 :
  le_bytes 8 0x0102030405060708 = [x08; x07; x06; x05; x04; x03; x02; x01].
Proof. reflexivity. Qed.

Example ctor_10 : BloomFilter_ctor 10 = Some {| bits_per_key_ := 10; k_ := 6 |}.
Proof. vm_compute. reflexivity. Qed.

(** In binary64, [300 * 0.69] is just below 207 and truncates to 206; the
    clamp to 30 hides the difference from the exact product. *)
Example ctor_300 :
  size_t_of_double (SFmul prec emax (double_of_int 300) double_0_69) = Some 206
  /\ BloomFilter_ctor 300 = Some {| bits_per_key_ := 300; k_ := 30 |}.
Proof. split; vm_compute; reflexivity. Qed.

(** [-0.69] truncates to 0; from [-2] on the conversion to [size_t] is
    undefined. *)
Example ctor_negative :
  BloomFilter_ctor (-1) = Some {| bits_per_key_ := 2 ^ 64 - 1; k_ := 1 |}
  /\ BloomFilter_ctor (-2) = None.
Proof. split; vm_compute; reflexivity. Qed.

Example build_strings :
  CreateFilter true {| bits_per_key_ := 10; k_ := 6 |}
    [[x68; x65; x6c; x6c; x6f]; [x77; x6f; x72; x6c; x64]] 2 []
  = Some [x11; x40; x00; x41; x44; x10; x40; x10; x06].
Proof. vm_compute. reflexivity. Qed.

Example query_strings :
  let filter := [x11; x40; x00; x41; x44; x10; x40; x10; x06] in
  let this := {| bits_per_key_ := 10; k_ := 6 |} in
  KeyMayMatch true this [x68; x65; x6c; x6c; x6f] filter = Some true
  /\ KeyMayMatch true this [x77; x6f; x72; x6c; x64] filter = Some true
  /\ KeyMayMatch true this [x66; x6f; x6f] filter = Some false.
Proof. repeat split; vm_compute; reflexivity. Qed.

Example build_uint64_after_prefix :
  CreateFilter false {| bits_per_key_ := 10; k_ := 6 |} [1; 2; 3] 3 [xaa]
  = Some [xaa; x01; x4c; x80; x00; x11; x40; x02; x40; x06].
Proof. vm_compute. reflexivity. Qed.

(** A count beyond the key list reads [keys[3]] of a vector of three. *)
Example build_count_too_large :
  CreateFilter false {| bits_per_key_ := 10; k_ := 6 |} [1; 2; 3] 4 [] = None.
Proof. vm_compute. reflexivity. Qed.

(** * The claims *)

(** C1. No false negatives: for a policy made from a positive
    [bits_per_key], a list of keys of either kind and a key of that list,
    building the filter from the whole list into an empty buffer returns a
    filter, and asking that filter for the key answers [true]. *)
Theorem no_false_negatives {K : Type} `{BloomKey K} (sgn : bool)
    (bits_per_key : Z) (keys : list K) (key : K) :
  0 < bits_per_key <= INT_MAX ->
  Z.of_nat (length keys) <= INT_MAX ->
  key ∈ keys ->
  exists this filter,
    BloomFilter_ctor bits_per_key = Some this
    /\ CreateFilter sgn this keys (Z.of_nat (length keys)) [] = Some filter
    /\ KeyMayMatch sgn this key filter = Some true.
Proof.
  intros Hbpk Hlen Hin. unfold INT_MAX in *.
  destruct (BloomFilter_ctor_ok bits_per_key) as (this & Hctor & Hb & Hk);
    [unfold INT_MAX; lia|].
  apply list_elem_of_lookup in Hin as [i Hi].
  pose proof (lookup_lt_Some _ _ _ Hi) as Hlt.
  destruct (inserted_key_matches sgn this this keys (Z.of_nat (length keys)) [] key i)
    as (filter & Hcf & Hq); try rewrite Hb; try lia; try nia; try assumption.
  exists this, filter. auto.
Qed.

Lemma no_false_negatives_witness :
  exists this filter,
    BloomFilter_ctor 10 = Some this
    /\ CreateFilter true this [[x68; x69]; [x79; x6f]]
         (Z.of_nat (length [[x68; x69]; [x79; x6f]])) [] = Some filter
    /\ KeyMayMatch true this [x79; x6f] filter = Some true.
Proof.
  apply (no_false_negatives true 10 [[x68; x69]; [x79; x6f]] [x79; x6f]).
  - unfold INT_MAX. lia.
  - unfold INT_MAX. simpl. lia.
  - apply list_elem_of_In. simpl. auto.
Defined.

(** C2, as amended.  For every non-negative [int] [bits_per_key] the
    constructor returns a policy whose number of probes is the floor of
    [bits_per_key * 69 / 100], clamped to the inclusive range 1..30. *)
Theorem num_probes_floor_0_69 (bits_per_key : Z) :
  0 <= bits_per_key <= INT_MAX ->
  exists this,
    BloomFilter_ctor bits_per_key = Some this
    /\ k_ this = clamp_probes (69 * bits_per_key / 100)
    /\ 1 <= k_ this <= 30.
Proof.
  intros Hb. rewrite BloomFilter_ctor_spec by assumption.
  eexists. split; [reflexivity|]. simpl. unfold clamp_probes. lia.
Qed.

Lemma num_probes_floor_0_69_witness :
  exists this,
    BloomFilter_ctor 10 = Some this
    /\ k_ this = clamp_probes (69 * 10 / 100)
    /\ 1 <= k_ this <= 30.
Proof. apply (num_probes_floor_0_69 10). unfold INT_MAX. lia. Defined.

(** C2, as stated, fails at [bits_per_key = 13]: the constructor derives 8
    probes, and the floor of [13 * ln 2] is 9. *)
Lemma num_probes_ln2_counterexample :
  exists this,
    BloomFilter_ctor 13 = Some this /\ k_ this = 8 /\ spec_num_probes 13 = 9.
Proof.
  eexists. split; [vm_compute; reflexivity|]. split; [reflexivity|].
  unfold spec_num_probes. rewrite floor_13_ln2. reflexivity.
Qed.

(** C3. A filter of at least two bytes whose last byte is greater than 30
    matches every key, whatever its bit array holds. *)
Theorem reserved_probe_count_matches {K : Type} `{BloomKey K} (sgn : bool)
    (this : BloomFilter) (key : K) (filter : list byte) (c : byte) :
  (2 <= length filter)%nat ->
  last filter = Some c ->
  30 < uchar c ->
  KeyMayMatch sgn this key filter = Some true.
Proof.
  intros Hlen Hlast Hc.
  destruct (snoc_of_last filter c Hlen Hlast) as (arr & -> & Harr).
  rewrite KeyMayMatch_unfold by assumption.
  destruct (Z.ltb_spec 30 (uchar c)); [reflexivity|lia].
Qed.

Lemma reserved_probe_count_matches_witness :
  KeyMayMatch false (mkBloomFilter 10 6) 42 [x00; x00; x1f] = Some true.
Proof.
  apply (reserved_probe_count_matches false (mkBloomFilter 10 6) 42 [x00; x00; x1f] x1f).
  - simpl. lia.
  - reflexivity.
  - vm_compute. reflexivity.
Defined.

(** C4. A filter of length 0 or 1 matches no key: the answer is [false],
    and it is an answer, not an error. *)
Theorem short_filter_matches_nothing {K : Type} `{BloomKey K} (sgn : bool)
    (this : BloomFilter) (key : K) (filter : list byte) :
  (length filter < 2)%nat ->
  KeyMayMatch sgn this key filter = Some false.
Proof.
  intros Hlen. unfold KeyMayMatch.
  destruct (Z.ltb_spec (Z.of_nat (length filter)) 2); [reflexivity|lia].
Qed.

Lemma short_filter_matches_nothing_witness :
  KeyMayMatch true (mkBloomFilter 10 6) [x61] [x78] = Some false.
Proof.
  apply (short_filter_matches_nothing true (mkBloomFilter 10 6) [x61] [x78]).
  simpl. lia.
Defined.

(** C5. For a policy made from a non-negative [int] [bits_per_key] and a
    count [n] of keys, construction appends a bit array of
    [ceil (max (n * bits_per_key) 64 / 8)] bytes and one more byte, the
    probe count; for [n = 0], and for [n = 1] with [bits_per_key <= 64],
    the bit array has exactly 8 bytes. *)
Theorem CreateFilter_appended_size {K : Type} `{BloomKey K} (sgn : bool)
    (bits_per_key : Z) (keys : list K) (n : Z) (dst : list byte) :
  0 <= bits_per_key <= INT_MAX ->
  0 <= n <= INT_MAX ->
  n <= Z.of_nat (length keys) ->
  exists this array,
    BloomFilter_ctor bits_per_key = Some this
    /\ CreateFilter sgn this keys n dst = Some (dst ++ array ++ [to_char (k_ this)])
    /\ Z.of_nat (length array) = ceil_div (Z.max (n * bits_per_key) 64) 8
    /\ Z.of_nat (length (array ++ [to_char (k_ this)]))
       = ceil_div (Z.max (n * bits_per_key) 64) 8 + 1
    /\ (n = 0 \/ (n = 1 /\ bits_per_key <= 64) -> length array = 8%nat).
Proof.
  intros Hbpk Hn Hlen. unfold INT_MAX in *.
  destruct (BloomFilter_ctor_ok bits_per_key) as (this & Hctor & Hb & Hk);
    [unfold INT_MAX; lia|].
  destruct (CreateFilter_spec sgn this keys n dst) as (arr & Hcf & Hl & _ & _);
    try rewrite Hb; try lia; try nia.
  exists this, arr. rewrite Hb in Hl. unfold filter_bytes in Hl.
  repeat split; try assumption.
  - rewrite length_app, Nat2Z.inj_add, Hl. reflexivity.
  - intros Hsmall.
    assert (Z.max (n * bits_per_key) 64 = 64) as E by nia.
    rewrite E in Hl. change (ceil_div 64 8) with 8 in Hl. lia.
Qed.

Lemma CreateFilter_appended_size_witness :
  exists this array,
    BloomFilter_ctor 10 = Some this
    /\ CreateFilter true this [[x61]] 1 [xff] = Some ([xff] ++ array ++ [to_char (k_ this)])
    /\ Z.of_nat (length array) = ceil_div (Z.max (1 * 10) 64) 8
    /\ Z.of_nat (length (array ++ [to_char (k_ this)]))
       = ceil_div (Z.max (1 * 10) 64) 8 + 1
    /\ (1 = 0 \/ (1 = 1 /\ 10 <= 64) -> length array = 8%nat).
Proof.
  apply (CreateFilter_appended_size true 10 [[x61]] 1 [xff]).
  - unfold INT_MAX. lia.
  - unfold INT_MAX. lia.
  - simpl. lia.
Defined.

(** C6. The answer of a query does not depend on the instance that is
    asked: two policies, whatever their [bits_per_key_] and [k_], give the
    same answer for the same key and the same filter bytes.  The answer is
    a function of the key and the filter alone: with [c] the last byte of
    the filter, it is [true] exactly when [c] is above 30 or the [c]
    probe positions of the key are all set in the bytes before [c]. *)
Theorem KeyMayMatch_ignores_policy {K : Type} `{BloomKey K} (sgn : bool)
    (this that : BloomFilter) (key : K) (filter : list byte) :
  KeyMayMatch sgn this key filter = KeyMayMatch sgn that key filter
  /\ (forall (array : list byte) (c : byte),
        filter = array ++ [c] ->
        (1 <= length array)%nat ->
        Z.of_nat (length array) < 2 ^ 61 ->
        exists answer,
          KeyMayMatch sgn this key filter = Some answer
          /\ (answer = true <->
              30 < uchar c \/
              forall j : nat,
                Z.of_nat j < uchar c ->
                bit_at array (key_probe (8 * Z.of_nat (length array)) key j) = true)).
Proof.
  split; [reflexivity|].
  intros array c -> Hlen Hmax. rewrite KeyMayMatch_unfold by assumption.
  pose proof (uchar_range c) as Hc.
  destruct (Z.ltb_spec 30 (uchar c)) as [Hres|Hk].
  - exists true. split; [reflexivity|]. split; [left; assumption|reflexivity].
  - unfold size_t. rewrite Z.mod_small by lia.
    destruct (test_probes_spec sgn array [c] (8 * Z.of_nat (length array))
                (rotate_right_17 (BloomHash key)) (Z.to_nat (uchar c)) (BloomHash key))
      as (b & -> & Hb); [lia|lia|apply BloomHash_u32|].
    exists b. split; [reflexivity|]. rewrite Hb. split.
    + intros Hall. right. intros j Hj. apply Hall. lia.
    + intros [Hbad|Hall] j Hj; [lia|]. apply Hall. lia.
Qed.

Lemma KeyMayMatch_ignores_policy_witness :
  KeyMayMatch true (mkBloomFilter 20 13) [x61] [xff; xff; x02]
  = KeyMayMatch true (mkBloomFilter 2 1) [x61] [xff; xff; x02]
  /\ exists answer,
       KeyMayMatch true (mkBloomFilter 20 13) [x61] [xff; xff; x02] = Some answer
       /\ (answer = true <->
           30 < uchar x02 \/
           forall j : nat,
             Z.of_nat j < uchar x02 ->
             bit_at [xff; xff] (key_probe (8 * Z.of_nat (length [xff; xff])) [x61] j) = true).
Proof.
  destruct (KeyMayMatch_ignores_policy true (mkBloomFilter 20 13) (mkBloomFilter 2 1)
              [x61] [xff; xff; x02]) as [Heq Hfun].
  split; [exact Heq|].
  apply (Hfun [xff; xff] x02).
  - reflexivity.
  - simpl. lia.
  - simpl. lia.
Defined.

(** C7. The bits that construction sets are exactly the probe positions of
    the keys it processes: with [h0] the hash of a key and [delta] its
    rotation to the right by 17 bits, bit [q] of the bit array is set if
    and only if [q = ((h0 + j * delta) mod 2^32) mod total_bits] for one of
    the first [n] keys and some [j] below the number of probes. *)
Theorem CreateFilter_sets_probe_positions {K : Type} `{BloomKey K} (sgn : bool)
    (bits_per_key : Z) (keys : list K) (n : Z) (dst : list byte) :
  0 <= bits_per_key <= INT_MAX ->
  0 <= n <= INT_MAX ->
  n <= Z.of_nat (length keys) ->
  exists this array,
    BloomFilter_ctor bits_per_key = Some this
    /\ CreateFilter sgn this keys n dst = Some (dst ++ array ++ [to_char (k_ this)])
    /\ (forall key i, 0 <= i < 32 ->
          Z.testbit (rotate_right_17 (BloomHash key)) i
          = Z.testbit (BloomHash key) ((i + 17) mod 32))
    /\ let total_bits := 8 * Z.of_nat (length array) in
       forall q, 0 <= q < total_bits ->
         (bit_at array q = true <->
          exists (i : nat) (key : K) (j : nat),
            Z.of_nat i < n /\ keys !! i = Some key /\ Z.of_nat j < k_ this
            /\ let h0 := BloomHash key in
               let delta := rotate_right_17 h0 in
               q = ((h0 + Z.of_nat j * delta) mod 2 ^ 32) mod total_bits).
Proof.
  intros Hbpk Hn Hlen. unfold INT_MAX in *.
  destruct (BloomFilter_ctor_ok bits_per_key) as (this & Hctor & Hb & Hk);
    [unfold INT_MAX; lia|].
  destruct (CreateFilter_spec sgn this keys n dst) as (arr & Hcf & Hl & _ & Hbits);
    try rewrite Hb; try lia; try nia.
  exists this, arr. repeat split; try assumption.
  - intros key i Hi. apply rotate_right_17_spec; [apply BloomHash_u32|assumption].
  - rewrite Hl. intros Hq. apply Hbits in Hq as (i & key & j & Hi & Hkey & Hj & ->); [|lia].
    exists i, key, j. repeat split; try assumption; lia.
  - rewrite Hl. intros (i & key & j & Hi & Hkey & Hj & ->). apply Hbits.
    + apply probe_pos_range. unfold filter_bytes.
      pose proof (ceil_div_8_spec (Z.max (n * bits_per_key_ this) 64)). lia.
    + exists i, key, j. repeat split; try assumption; lia.
Qed.

Lemma CreateFilter_sets_probe_positions_witness :
  exists this array,
    BloomFilter_ctor 10 = Some this
    /\ CreateFilter false this [7; 9] 2 [] = Some ([] ++ array ++ [to_char (k_ this)])
    /\ (forall key i, 0 <= i < 32 ->
          Z.testbit (rotate_right_17 (BloomHash key)) i
          = Z.testbit (BloomHash key) ((i + 17) mod 32))
    /\ let total_bits := 8 * Z.of_nat (length array) in
       forall q, 0 <= q < total_bits ->
         (bit_at array q = true <->
          exists (i : nat) (key : Z) (j : nat),
            Z.of_nat i < 2 /\ [7; 9] !! i = Some key /\ Z.of_nat j < k_ this
            /\ let h0 := BloomHash key in
               let delta := rotate_right_17 h0 in
               q = ((h0 + Z.of_nat j * delta) mod 2 ^ 32) mod total_bits).
Proof.
  apply (CreateFilter_sets_probe_positions false 10 [7; 9] 2 []).
  - unfold INT_MAX. lia.
  - unfold INT_MAX. lia.
  - simpl. lia.
Defined.

(** C8. Construction only appends: whatever the policy, the keys, the
    count and the buffer, a run that returns leaves the bytes that were in
    the buffer as they were, in front of what it appended; and for a policy
    made from a non-negative [int] and a count within the key list the run
    does return. *)
Theorem CreateFilter_only_appends {K : Type} `{BloomKey K} (sgn : bool)
    (this : BloomFilter) (keys : list K) (n : Z) (dst : list byte) :
  (forall dst', CreateFilter sgn this keys n dst = Some dst' ->
     exists filter, dst' = dst ++ filter
                    /\ take (length dst) dst' = dst
                    /\ (length dst < length dst')%nat)
  /\ (forall bits_per_key,
        0 <= bits_per_key <= INT_MAX ->
        BloomFilter_ctor bits_per_key = Some this ->
        0 <= n <= INT_MAX -> n <= Z.of_nat (length keys) ->
        is_Some (CreateFilter sgn this keys n dst)).
Proof.
  split.
  - intros dst' Hcf. destruct (CreateFilter_frame sgn this keys n dst dst' Hcf) as [filter ->].
    exists filter. split; [reflexivity|]. split; [apply take_app_length|].
    unfold CreateFilter in Hcf. apply add_keys_frame in Hcf as [_ Hlen].
    rewrite Hlen, !length_app. simpl. lia.
  - intros bits_per_key Hbpk Hctor Hn Hlen. unfold INT_MAX in *.
    destruct (BloomFilter_ctor_ok bits_per_key) as (this' & Hctor' & Hb & Hk);
      [unfold INT_MAX; lia|].
    rewrite Hctor in Hctor'. injection Hctor' as <-.
    destruct (CreateFilter_spec sgn this keys n dst) as (arr & -> & _);
      try rewrite Hb; try lia; try nia.
    eexists. reflexivity.
Qed.

Lemma CreateFilter_only_appends_witness :
  (forall dst', CreateFilter true (mkBloomFilter 10 6) [[x61]; [x62]] 2 [x01; x02] = Some dst' ->
     exists filter, dst' = [x01; x02] ++ filter
                    /\ take (length [x01; x02]) dst' = [x01; x02]
                    /\ (length [x01; x02] < length dst')%nat)
  /\ is_Some (CreateFilter true (mkBloomFilter 10 6) [[x61]; [x62]] 2 [x01; x02]).
Proof.
  destruct (CreateFilter_only_appends true (mkBloomFilter 10 6) [[x61]; [x62]] 2 [x01; x02])
    as [Hframe Htotal].
  split; [exact Hframe|].
  apply (Htotal 10).
  - unfold INT_MAX. lia.
  - vm_compute. reflexivity.
  - unfold INT_MAX. lia.
  - simpl. lia.
Defined.

(** C9. A filter of at least two bytes whose last byte is 0 matches every
    key: the loop runs zero times, so the answer is [true] whatever the bit
    array holds, all zeros included. *)
Theorem zero_probe_count_matches {K : Type} `{BloomKey K} (sgn : bool)
    (this : BloomFilter) (key : K) (filter : list byte) (c : byte) :
  (2 <= length filter)%nat ->
  last filter = Some c ->
  uchar c = 0 ->
  KeyMayMatch sgn this key filter = Some true.
Proof.
  intros Hlen Hlast Hc.
  destruct (snoc_of_last filter c Hlen Hlast) as (arr & -> & Harr).
  rewrite KeyMayMatch_unfold by assumption. rewrite Hc. reflexivity.
Qed.

Lemma zero_probe_count_matches_witness :
  KeyMayMatch true (mkBloomFilter 10 6) [x61; x62; x63]
    [x00; x00; x00; x00; x00; x00; x00; x00; x00] = Some true.
Proof.
  apply (zero_probe_count_matches true (mkBloomFilter 10 6) [x61; x62; x63]
           [x00; x00; x00; x00; x00; x00; x00; x00; x00] x00).
  - simpl. lia.
  - reflexivity.
  - reflexivity.
Defined.

(** C10. For a filter of [len >= 2] bytes whose last byte is at most 30,
    the query reads inside the bit array only: it returns an answer (the
    out-of-bounds branch of the indexing is never taken), and for every
    32-bit [h] the position [bitpos = h % bits] is below [(len - 1) * 8],
    so that [bitpos / 8 <= len - 2] and the byte at that index exists. *)
Theorem KeyMayMatch_reads_in_bounds {K : Type} `{BloomKey K} (sgn : bool)
    (this : BloomFilter) (key : K) (filter : list byte) (c : byte) :
  (2 <= length filter)%nat ->
  Z.of_nat (length filter) <= 2 ^ 61 ->
  last filter = Some c ->
  uchar c <= 30 ->
  let len := Z.of_nat (length filter) in
  let bits := size_t ((len - 1) * 8) in
  is_Some (KeyMayMatch sgn this key filter)
  /\ bits = (len - 1) * 8
  /\ forall h : Z,
       0 <= h < 2 ^ 32 ->
       let bitpos := u32 (h mod bits) in
       0 <= bitpos < (len - 1) * 8
       /\ 0 <= bitpos / 8 <= len - 2
       /\ is_Some (filter !! Z.to_nat (bitpos / 8)).
Proof.
  intros Hlen Hmax Hlast Hc len bits.
  destruct (snoc_of_last filter c Hlen Hlast) as (arr & -> & Harr).
  assert (len = Z.of_nat (length arr) + 1) as Hl
    by (subst len; rewrite length_app; simpl; lia).
  assert (bits = 8 * Z.of_nat (length arr)) as Hbits.
  { subst bits. unfold size_t. rewrite Z.mod_small; lia. }
  split; [|split; [lia|]].
  - rewrite KeyMayMatch_unfold by assumption.
    destruct (Z.ltb_spec 30 (uchar c)); [lia|].
    replace (size_t (8 * Z.of_nat (length arr))) with bits
      by (rewrite Hbits; unfold size_t; rewrite Z.mod_small; lia).
    destruct (test_probes_spec sgn arr [c] bits (rotate_right_17 (BloomHash key))
                (Z.to_nat (uchar c)) (BloomHash key)) as (b & -> & _);
      [lia|lia|apply BloomHash_u32|].
    eexists. reflexivity.
  - intros h Hh bitpos.
    assert (0 <= bitpos < bits) as Hp.
    { subst bitpos. rewrite (probe_pos_0 bits h 0) by lia. apply probe_pos_range. lia. }
    pose proof (byte_index_range bitpos (Z.of_nat (length arr)) ltac:(lia)) as Hidx.
    split; [lia|]. split; [lia|].
    apply lookup_lt_is_Some_2. rewrite length_app. simpl. lia.
Qed.

Lemma KeyMayMatch_reads_in_bounds_witness :
  let filter := [xff; x00; x13; x80; x06] in
  let len := Z.of_nat (length filter) in
  let bits := size_t ((len - 1) * 8) in
  is_Some (KeyMayMatch true (mkBloomFilter 10 6) 12345 filter)
  /\ bits = (len - 1) * 8
  /\ forall h : Z,
       0 <= h < 2 ^ 32 ->
       let bitpos := u32 (h mod bits) in
       0 <= bitpos < (len - 1) * 8
       /\ 0 <= bitpos / 8 <= len - 2
       /\ is_Some (filter !! Z.to_nat (bitpos / 8)).
Proof.
  apply (KeyMayMatch_reads_in_bounds true (mkBloomFilter 10 6) 12345
           [xff; x00; x13; x80; x06] x06).
  - simpl. lia.
  - simpl. lia.
  - reflexivity.
  - vm_compute. discriminate.
Defined.

(** * Further properties of the code *)

(** ** Bytes and words *)

Lemma to_char_of_mod z c : z mod 256 = uchar c -> to_char z = c.
Proof.
  intros E. unfold to_char. rewrite E. unfold uchar.
  rewrite N2Z.id, Byte.of_to_N. reflexivity.
Qed.

Lemma uchar_inj c1 c2 : uchar c1 = uchar c2 -> c1 = c2.
Proof.
  intros E. rewrite <- (to_char_of_mod (uchar c1) c1), <- (to_char_of_mod (uchar c1) c2).
  - reflexivity.
  - rewrite E. apply Z.mod_small, uchar_range.
  - apply Z.mod_small, uchar_range.
Qed.

Lemma lor_low_high x z n :
  0 <= n -> 0 <= x < 2 ^ n -> Z.lor x (z * 2 ^ n) = x + z * 2 ^ n.
Proof.
  intros Hn Hx. rewrite <- Z.add_lor_land.
  replace (Z.land x (z * 2 ^ n)) with 0; [lia|].
  symmetry. apply Z.bits_inj'. intros i Hi.
  rewrite Z.land_spec, Z.bits_0.
  destruct (Z.lt_ge_cases i n).
  - rewrite Z.mul_pow2_bits_low by lia. apply andb_false_r.
  - rewrite <- (Z.mod_small x (2 ^ n)) by lia.
    rewrite Z.mod_pow2_bits_high by lia. reflexivity.
Qed.

Lemma DecodeFixed32_sum b0 b1 b2 b3 :
  DecodeFixed32 b0 b1 b2 b3
  = uchar b0 + 2 ^ 8 * uchar b1 + 2 ^ 16 * uchar b2 + 2 ^ 24 * uchar b3.
Proof.
  pose proof (uchar_range b0). pose proof (uchar_range b1).
  pose proof (uchar_range b2). pose proof (uchar_range b3).
  unfold DecodeFixed32. rewrite !Z.shiftl_mul_pow2 by lia.
  replace (uchar b3 * 2 ^ 24) with (uchar b3 * 2 ^ 24) by reflexivity.
  rewrite (lor_low_high (uchar b2 * 2 ^ 16) (uchar b3) 24) by lia.
  replace (uchar b2 * 2 ^ 16 + uchar b3 * 2 ^ 24)
    with ((uchar b2 + uchar b3 * 2 ^ 8) * 2 ^ 16) by lia.
  rewrite (lor_low_high (uchar b1 * 2 ^ 8) _ 16) by lia.
  replace (uchar b1 * 2 ^ 8 + (uchar b2 + uchar b3 * 2 ^ 8) * 2 ^ 16)
    with ((uchar b1 + uchar b2 * 2 ^ 8 + uchar b3 * 2 ^ 16) * 2 ^ 8) by lia.
  rewrite (lor_low_high (uchar b0) _ 8) by lia. lia.
Qed.

Lemma DecodeFixed32_little_endian b0 b1 b2 b3 (w : Z) :
  0 <= DecodeFixed32 b0 b1 b2 b3 < 2 ^ 32
  /\ le_bytes 4 (DecodeFixed32 b0 b1 b2 b3) = [b0; b1; b2; b3]
  /\ match le_bytes 4 w with
     | [c0; c1; c2; c3] => DecodeFixed32 c0 c1 c2 c3 = w mod 2 ^ 32
     | _ => False
     end.
Proof.
  pose proof (uchar_range b0). pose proof (uchar_range b1).
  pose proof (uchar_range b2). pose proof (uchar_range b3).
  split; [rewrite DecodeFixed32_sum; lia|]. split.
  - rewrite DecodeFixed32_sum. cbn [le_bytes].
    rewrite !Z.shiftr_shiftr, !Z.shiftr_div_pow2 by lia.
    repeat f_equal; apply to_char_of_mod; simpl Z.add;
      Z.div_mod_to_equations; lia.
  - cbn [le_bytes]. rewrite DecodeFixed32_sum, !uchar_to_char.
    rewrite !Z.shiftr_shiftr, !Z.shiftr_div_pow2 by lia. simpl Z.add.
    Z.div_mod_to_equations. lia.
Qed.


(** ** Where the filter is written, and which keys are read *)

Section Placement.
Context {K : Type} `{BloomKey K}.
Variable sgn : bool.

Lemma or_bit_shift (pre l : list byte) bitpos :
  or_bit sgn (length pre) bitpos (pre ++ l) = (app pre) <$> or_bit sgn 0 bitpos l.
Proof.
  unfold or_bit. rewrite lookup_app_r by lia.
  replace (length pre + Z.to_nat (bitpos / 8) - length pre)%nat
    with (0 + Z.to_nat (bitpos / 8))%nat by lia.
  destruct (l !! _) as [c|]; simpl; [|reflexivity].
  rewrite insert_app_r. reflexivity.
Qed.

Lemma set_probes_shift (pre : list byte) bits delta j :
  forall h (l : list byte),
  set_probes sgn (length pre) bits delta j h (pre ++ l)
  = (app pre) <$> set_probes sgn 0 bits delta j h l.
Proof.
  induction j as [|j IH]; intros h l; simpl; [reflexivity|].
  destruct (bits =? 0); [reflexivity|].
  rewrite or_bit_shift. destruct (or_bit sgn 0 _ l) as [l1|]; simpl; [|reflexivity].
  apply IH.
Qed.

Lemma add_keys_shift this (keys : list K) (pre : list byte) bits count :
  forall i (l : list byte),
  add_keys sgn this keys (length pre) bits count i (pre ++ l)
  = (app pre) <$> add_keys sgn this keys 0 bits count i l.
Proof.
  induction count as [|count IH]; intros i l; simpl; [reflexivity|].
  destruct (keys !! i) as [key|]; simpl; [|reflexivity].
  rewrite set_probes_shift.
  destruct (set_probes sgn 0 _ _ _ _ l) as [l1|]; simpl; [|reflexivity].
  apply IH.
Qed.

Lemma CreateFilter_shift this (keys : list K) (n : Z) (dst : list byte) :
  CreateFilter sgn this keys n dst = (app dst) <$> CreateFilter sgn this keys n [].
Proof.
  unfold CreateFilter. rewrite <- app_assoc. rewrite add_keys_shift. reflexivity.
Qed.

Lemma add_keys_take this (keys : list K) init_size bits m count :
  forall i (dst : list byte),
  (i + count <= m)%nat ->
  add_keys sgn this (take m keys) init_size bits count i dst
  = add_keys sgn this keys init_size bits count i dst.
Proof.
  induction count as [|count IH]; intros i dst Hi; simpl; [reflexivity|].
  rewrite lookup_take_lt by lia.
  destruct (keys !! i) as [key|]; simpl; [|reflexivity].
  destruct (set_probes sgn init_size _ _ _ _ dst) as [dst1|]; simpl; [|reflexivity].
  apply IH. lia.
Qed.

Lemma CreateFilter_reads_first_n_keys this (keys : list K) (n : Z) (dst : list byte) :
  CreateFilter sgn this (take (Z.to_nat n) keys) n dst = CreateFilter sgn this keys n dst.
Proof. unfold CreateFilter. apply add_keys_take. lia. Qed.

End Placement.


(** Two bit arrays of the same length with the same bits are the same bytes. *)
Lemma bit_array_ext (a1 a2 : list byte) :
  length a1 = length a2 ->
  (forall q, 0 <= q < 8 * Z.of_nat (length a1) -> bit_at a1 q = bit_at a2 q) ->
  a1 = a2.
Proof.
  intros Hlen Hbits. apply (list_eq_same_length _ _ (length a1)); [congruence|reflexivity|].
  intros i c1 c2 Hi H1 H2. apply uchar_inj. apply Z.bits_inj'. intros b Hb.
  destruct (Z.lt_ge_cases b 8) as [Hlo|Hhi].
  - specialize (Hbits (8 * Z.of_nat i + b) ltac:(lia)). unfold bit_at in Hbits.
    replace ((8 * Z.of_nat i + b) / 8) with (Z.of_nat i) in Hbits
      by (apply (Z.div_unique _ _ _ b); lia).
    replace ((8 * Z.of_nat i + b) mod 8) with b in Hbits
      by (apply (Z.mod_unique _ _ (Z.of_nat i)); lia).
    rewrite Nat2Z.id, H1, H2 in Hbits. exact Hbits.
  - pose proof (uchar_range c1). pose proof (uchar_range c2).
    rewrite <- (Z.mod_small (uchar c1) (2 ^ 8)), <- (Z.mod_small (uchar c2) (2 ^ 8)) by lia.
    rewrite !Z.mod_pow2_bits_high by lia. reflexivity.
Qed.

(** ** Building, then asking *)

Section Built.
Context {K : Type} `{BloomKey K}.
Variable sgn : bool.

(** The answer of a query on a filter that was just built. *)
Lemma built_filter_query (this that : BloomFilter) (keys : list K) (n : Z)
    (dst : list byte) (key : K) :
  0 <= n <= Z.of_nat (length keys) ->
  n < 2 ^ 64 ->
  0 <= bits_per_key_ this ->
  n * bits_per_key_ this + 7 < 2 ^ 64 ->
  0 <= k_ this <= 30 ->
  exists filter answer,
    CreateFilter sgn this keys n dst = Some (dst ++ filter)
    /\ last filter = Some (to_char (k_ this))
    /\ KeyMayMatch sgn that key filter = Some answer
    /\ (answer = true <->
        forall j, (j < Z.to_nat (k_ this))%nat ->
          exists i key' j', (i < Z.to_nat n)%nat /\ keys !! i = Some key'
            /\ (j' < Z.to_nat (k_ this))%nat
            /\ key_probe (8 * filter_bytes n (bits_per_key_ this)) key j
               = key_probe (8 * filter_bytes n (bits_per_key_ this)) key' j').
Proof.
  intros Hn Hn64 Hbpk Hov Hk.
  destruct (CreateFilter_spec sgn this keys n dst Hn Hn64 Hbpk Hov)
    as (arr & Hcf & Hlen & Hfb & Hbits).
  exists (arr ++ [to_char (k_ this)]).
  rewrite KeyMayMatch_unfold by lia.
  rewrite uchar_to_char, Z.mod_small by lia.
  destruct (Z.ltb_spec 30 (k_ this)) as [|_]; [lia|].
  rewrite Hlen. unfold size_t. rewrite Z.mod_small by lia.
  destruct (test_probes_spec sgn arr [to_char (k_ this)]
              (8 * filter_bytes n (bits_per_key_ this))
              (rotate_right_17 (BloomHash key)) (Z.to_nat (k_ this)) (BloomHash key))
    as (b & -> & Hb); [lia|lia|apply BloomHash_u32|].
  exists b. split; [exact Hcf|]. split; [apply last_snoc|]. split; [reflexivity|].
  rewrite Hb. split.
  - intros Hall j Hj. specialize (Hall j Hj). apply Hbits in Hall.
    + destruct Hall as (i & key' & j' & Hi & Hk' & Hj' & E). exists i, key', j'. auto.
    + apply probe_pos_range. lia.
  - intros Hall j Hj. destruct (Hall j Hj) as (i & key' & j' & Hi & Hk' & Hj' & E).
    apply Hbits; [apply probe_pos_range; lia|].
    exists i, key', j'. repeat split; try assumption.
Qed.
End Built.

(** ** A count beyond the key list *)

Section Overrun.
Context {K : Type} `{BloomKey K}.
Variable sgn : bool.

End Overrun.

(** ** The constructor on a negative [bits_per_key] *)

Lemma binary_round_aux_negative mx ex lx :
  binary_round_aux prec emax true mx ex lx
  = SFopp (binary_round_aux prec emax false mx ex lx).
Proof.
  unfold binary_round_aux.
  destruct (shr_fexp prec emax mx ex lx) as [mrs' e'].
  destruct (shr_fexp prec emax _ e' loc_Exact) as [mrs'' e''].
  destruct (shr_m mrs''); [reflexivity| |reflexivity].
  destruct (e'' <=? emax - prec); reflexivity.
Qed.

Lemma double_of_int_negative p :
  double_of_int (Z.neg p) = SFopp (double_of_int (Z.pos p)).
Proof.
  unfold double_of_int, binary_normalize, binary_round.
  destruct (shl_align p 0 _) as [mz ez]. apply binary_round_aux_negative.
Qed.

Lemma mul_0_69_negative n :
  2 <= n < 2 ^ 52 ->
  size_t_of_double (SFmul prec emax (double_of_int (- n)) double_0_69) = None.
Proof.
  intros Hn. destruct (mul_0_69_trunc n) as (t & Ht & Hlo & _); [lia|].
  assert (1 <= n * mant_0_69 / 2 ^ 53)
    by (apply Z.div_le_lower_bound; unfold mant_0_69; lia).
  destruct n as [|p|p]; [lia| |lia].
  change (- Z.pos p) with (Z.neg p). rewrite double_of_int_negative.
  destruct (double_of_int (Z.pos p)) as [s|s| |s m e]; simpl in Ht |- *; try discriminate.
  - injection Ht as <-. lia.
  - unfold double_0_69 in *. destruct s; simpl in Ht |- *.
    + rewrite binary_round_aux_negative in Ht.
      destruct (binary_round_aux prec emax false _ _ _) as [s'|s'| |s' m' e'];
        simpl in Ht; try discriminate; [injection Ht as <-; lia|].
      destruct s'; simpl in Ht.
      * destruct (Z.shiftl (Z.pos m') e' <? 2 ^ 64); [|discriminate].
        injection Ht as <-. simpl.
        destruct (Z.eqb_spec (Z.shiftl (Z.pos m') e') 0); [lia|reflexivity].
      * destruct (Z.shiftl (Z.pos m') e' =? 0); [|discriminate]. injection Ht as <-. lia.
    + rewrite binary_round_aux_negative.
      destruct (binary_round_aux prec emax false _ _ _) as [s'|s'| |s' m' e'];
        simpl in Ht |- *; try discriminate; [injection Ht as <-; lia|].
      destruct s'; simpl in Ht |- *.
      * destruct (Z.shiftl (Z.pos m') e' =? 0); [|discriminate]. injection Ht as <-. lia.
      * destruct (Z.shiftl (Z.pos m') e' <? 2 ^ 64); [|discriminate].
        injection Ht as <-.
        destruct (Z.eqb_spec (Z.shiftl (Z.pos m') e') 0); [lia|reflexivity].
Qed.

(** ** The properties *)

(** X1. [DecodeFixed32] reads four bytes as a little-endian 32-bit word:
    its value is the positional sum of the bytes, it is a [uint32_t], the
    bytes can be read back from it, distinct quadruples give distinct
    words, and the four low bytes of any integer decode to that integer
    modulo [2^32]. *)
Theorem DecodeFixed32_reads_little_endian (b0 b1 b2 b3 : byte) :
  DecodeFixed32 b0 b1 b2 b3
  = uchar b0 + 2 ^ 8 * uchar b1 + 2 ^ 16 * uchar b2 + 2 ^ 24 * uchar b3
  /\ 0 <= DecodeFixed32 b0 b1 b2 b3 < 2 ^ 32
  /\ le_bytes 4 (DecodeFixed32 b0 b1 b2 b3) = [b0; b1; b2; b3]
  /\ (forall c0 c1 c2 c3,
        DecodeFixed32 c0 c1 c2 c3 = DecodeFixed32 b0 b1 b2 b3 ->
        [c0; c1; c2; c3] = [b0; b1; b2; b3])
  /\ (forall w : Z,
        exists c0 c1 c2 c3,
          le_bytes 4 w = [c0; c1; c2; c3]
          /\ DecodeFixed32 c0 c1 c2 c3 = w mod 2 ^ 32).
Proof.
  destruct (DecodeFixed32_little_endian b0 b1 b2 b3 0) as (Hr & Hle & _).
  split; [apply DecodeFixed32_sum|]. split; [exact Hr|]. split; [exact Hle|]. split.
  - intros c0 c1 c2 c3 E.
    destruct (DecodeFixed32_little_endian c0 c1 c2 c3 0) as (_ & Hc & _).
    rewrite <- Hc, E. exact Hle.
  - intros w. destruct (DecodeFixed32_little_endian b0 b1 b2 b3 w) as (_ & _ & Hw).
    cbn [le_bytes] in *. eexists _, _, _, _. split; [reflexivity|exact Hw].
Qed.


(** X3. [BloomHash] of a [uint64_t] is two word rounds and no tail step:
    the low 32 bits of the key are mixed first, then the high 32 bits,
    starting from [seed ^ (8 * m)].  It depends on the key modulo [2^64]
    only, and it is the hash of the string of the key's eight bytes. *)
Theorem BloomHash_uint64_two_words (key : Z) :
  let round h w :=
    let h := u32 (u32 (h + w) * Hash_m) in Z.lxor h (Z.shiftr h 16) in
  let lo := key mod 2 ^ 32 in
  let hi := (key / 2 ^ 32) mod 2 ^ 32 in
  BloomHash_uint64 key
  = round (round (u32 (Z.lxor bloom_seed (size_t (8 * Hash_m)))) lo) hi
  /\ BloomHash_uint64 (key mod 2 ^ 64) = BloomHash_uint64 key
  /\ BloomHash_uint64 key = BloomHash_string (le_bytes 8 key).
Proof.
  intros round lo hi.
  assert (forall k, BloomHash_uint64 k
            = round (round (u32 (Z.lxor bloom_seed (size_t (8 * Hash_m))))
                       (k mod 2 ^ 32)) ((k / 2 ^ 32) mod 2 ^ 32)) as Hform.
  { intros k. unfold BloomHash_uint64, Hash. cbn [le_bytes length Hash_words Hash_tail].
    destruct (DecodeFixed32_little_endian x00 x00 x00 x00 k) as (_ & _ & Hlo).
    destruct (DecodeFixed32_little_endian x00 x00 x00 x00
                (Z.shiftr (Z.shiftr (Z.shiftr (Z.shiftr k 8) 8) 8) 8)) as (_ & _ & Hhi).
    cbn [le_bytes] in Hlo, Hhi. rewrite Hlo, Hhi.
    rewrite !Z.shiftr_shiftr by lia. change (8 + (8 + (8 + 8))) with 32.
    rewrite (Z.shiftr_div_pow2 k 32) by lia. reflexivity. }
  split; [apply Hform|]. split; [|reflexivity].
  rewrite (Hform key), (Hform (key mod 2 ^ 64)). f_equal; [f_equal|].
  - change (2 ^ 64) with (2 ^ 32 * 2 ^ 32). rewrite Z.rem_mul_r by lia.
    rewrite Z.mul_comm, Z.mod_add by lia. apply Z.mod_mod. lia.
  - change (2 ^ 64) with (2 ^ 32 * 2 ^ 32). rewrite Z.rem_mul_r by lia.
    rewrite Z.mul_comm, Z.div_add by lia.
    rewrite (Z.div_small (key mod 2 ^ 32)) by (apply Z.mod_pos_bound; lia).
    simpl Z.add. apply Z.mod_mod. lia.
Qed.

(** X4. What [CreateFilter] appends does not depend on what the buffer
    held: the result on a buffer [dst] is [dst] followed by the result on
    the empty buffer, and the one is undefined exactly when the other is. *)
Theorem CreateFilter_independent_of_buffer {K : Type} `{BloomKey K} (sgn : bool)
    (this : BloomFilter) (keys : list K) (n : Z) (dst : list byte) :
  CreateFilter sgn this keys n dst = (app dst) <$> CreateFilter sgn this keys n []
  /\ (forall filter,
        CreateFilter sgn this keys n [] = Some filter <->
        CreateFilter sgn this keys n dst = Some (dst ++ filter)).
Proof.
  split; [apply CreateFilter_shift|].
  intros filter. rewrite (CreateFilter_shift sgn this keys n dst).
  destruct (CreateFilter sgn this keys n []) as [f|]; simpl.
  - split; [intros [= ->]; reflexivity|]. intros [= E]. apply app_inv_head in E. congruence.
  - split; discriminate.
Qed.

(** X5. [CreateFilter] reads [keys[0]] to [keys[n-1]] and nothing else of
    the vector: two key vectors with the same first [n] keys give the same
    result, also when it is no result. *)
Theorem CreateFilter_reads_only_first_keys {K : Type} `{BloomKey K} (sgn : bool)
    (this : BloomFilter) (keys1 keys2 : list K) (n : Z) (dst : list byte) :
  take (Z.to_nat n) keys1 = take (Z.to_nat n) keys2 ->
  CreateFilter sgn this keys1 n dst = CreateFilter sgn this keys2 n dst.
Proof.
  intros E. rewrite <- (CreateFilter_reads_first_n_keys sgn this keys1).
  rewrite <- (CreateFilter_reads_first_n_keys sgn this keys2). rewrite E. reflexivity.
Qed.

Lemma CreateFilter_reads_only_first_keys_witness :
  CreateFilter true (mkBloomFilter 10 6) [[x61]; [x62]; [x63]] 2 [x00]
  = CreateFilter true (mkBloomFilter 10 6) [[x61]; [x62]] 2 [x00].
Proof.
  apply (CreateFilter_reads_only_first_keys true (mkBloomFilter 10 6)
           [[x61]; [x62]; [x63]] [[x61]; [x62]] 2 [x00]).
  reflexivity.
Defined.

(** X6. The filter depends on the set of keys, not on their order or on
    repetitions: two key lists of the same length with the same elements
    give the same bytes. *)
Theorem CreateFilter_depends_on_key_set {K : Type} `{BloomKey K} (sgn : bool)
    (bits_per_key : Z) (keys1 keys2 : list K) (dst : list byte) :
  0 <= bits_per_key <= INT_MAX ->
  Z.of_nat (length keys1) <= INT_MAX ->
  length keys1 = length keys2 ->
  (forall key, key ∈ keys1 <-> key ∈ keys2) ->
  exists this dst',
    BloomFilter_ctor bits_per_key = Some this
    /\ CreateFilter sgn this keys1 (Z.of_nat (length keys1)) dst = Some dst'
    /\ CreateFilter sgn this keys2 (Z.of_nat (length keys2)) dst = Some dst'.
Proof.
  intros Hbpk Hlen Hsame Hset. unfold INT_MAX in *. rewrite <- Hsame.
  set (n := Z.of_nat (length keys1)) in *.
  destruct (BloomFilter_ctor_ok bits_per_key) as (this & Hctor & Hb & Hk);
    [unfold INT_MAX; lia|].
  destruct (CreateFilter_spec sgn this keys1 n dst)
    as (arr1 & Hcf1 & Hl1 & _ & Hbits1); try rewrite Hb; try lia; try nia.
  destruct (CreateFilter_spec sgn this keys2 n dst)
    as (arr2 & Hcf2 & Hl2 & _ & Hbits2); try rewrite Hb; try lia; try nia.
  exists this, (dst ++ arr1 ++ [to_char (k_ this)]). split; [exact Hctor|].
  split; [exact Hcf1|]. rewrite Hcf2. do 3 f_equal. symmetry.
  set (bits := 8 * filter_bytes n (bits_per_key_ this)) in *.
  assert (forall (ks ks' : list K),
            length ks' = length keys1 ->
            (forall key, key ∈ ks -> key ∈ ks') ->
            forall q,
              (exists i key j, (i < Z.to_nat n)%nat /\ ks !! i = Some key
                 /\ (j < Z.to_nat (k_ this))%nat /\ q = key_probe bits key j) ->
              (exists i key j, (i < Z.to_nat n)%nat /\ ks' !! i = Some key
                 /\ (j < Z.to_nat (k_ this))%nat /\ q = key_probe bits key j))
    as Hmove.
  { intros ks ks' Hl Hsub q (i & key & j & Hi & Hkey & Hj & Hq).
    assert (key ∈ ks') as Hin by (apply Hsub; apply list_elem_of_lookup; eauto).
    apply list_elem_of_lookup in Hin as [i' Hi'].
    exists i', key, j. repeat split; try assumption.
    apply lookup_lt_Some in Hi'. lia. }
  apply bit_array_ext; [lia|].
  intros q Hq. apply eq_true_iff_eq. rewrite Hbits1, Hbits2 by lia. split.
  - apply Hmove; [congruence|]. intros key. apply Hset.
  - apply Hmove; [reflexivity|]. intros key. apply Hset.
Qed.

Lemma CreateFilter_depends_on_key_set_witness :
  exists this dst',
    BloomFilter_ctor 10 = Some this
    /\ CreateFilter true this [[x61]; [x62]; [x61]] (Z.of_nat (length [[x61]; [x62]; [x61]])) []
       = Some dst'
    /\ CreateFilter true this [[x62]; [x62]; [x61]] (Z.of_nat (length [[x62]; [x62]; [x61]])) []
       = Some dst'.
Proof.
  apply (CreateFilter_depends_on_key_set true 10 [[x61]; [x62]; [x61]] [[x62]; [x62]; [x61]] []).
  - unfold INT_MAX. lia.
  - unfold INT_MAX. simpl. lia.
  - reflexivity.
  - intros key. rewrite !list_elem_of_In. simpl. tauto.
Defined.

(** X7. Built from no key ([n = 0]), the filter is eight zero bytes and
    the probe count, and it matches no key at all, whatever instance is
    asked. *)
Theorem empty_filter_matches_no_key {K : Type} `{BloomKey K} (sgn : bool)
    (bits_per_key : Z) (keys : list K) (dst : list byte) :
  0 <= bits_per_key <= INT_MAX ->
  exists this filter,
    BloomFilter_ctor bits_per_key = Some this
    /\ CreateFilter sgn this keys 0 dst = Some (dst ++ filter)
    /\ filter = replicate 8 x00 ++ [to_char (k_ this)]
    /\ forall (that : BloomFilter) (key : K),
         KeyMayMatch sgn that key filter = Some false.
Proof.
  intros Hbpk. unfold INT_MAX in *.
  destruct (BloomFilter_ctor_ok bits_per_key) as (this & Hctor & Hb & Hk);
    [unfold INT_MAX; lia|].
  exists this, (replicate 8 x00 ++ [to_char (k_ this)]).
  split; [exact Hctor|]. split; [|split; [reflexivity|]].
  - unfold CreateFilter. simpl. rewrite <- app_assoc. reflexivity.
  - intros that key.
    destruct (built_filter_query sgn this that keys 0 [] key)
      as (filter & answer & Hcf & _ & Hq & Hans); try lia.
    assert (filter = replicate 8 x00 ++ [to_char (k_ this)]) as ->.
    { unfold CreateFilter in Hcf. simpl in Hcf. injection Hcf as <-. reflexivity. }
    rewrite Hq. f_equal. destruct answer; [|reflexivity].
    destruct (proj1 Hans eq_refl 0%nat) as (i & _ & _ & Hi & _); lia.
Qed.

Lemma empty_filter_matches_no_key_witness :
  exists this filter,
    BloomFilter_ctor 10 = Some this
    /\ CreateFilter true this ([] : list (list byte)) 0 [x2a] = Some ([x2a] ++ filter)
    /\ filter = replicate 8 x00 ++ [to_char (k_ this)]
    /\ forall (that : BloomFilter) (key : list byte),
         KeyMayMatch true that key filter = Some false.
Proof.
  apply (empty_filter_matches_no_key (K := list byte) true 10 [] [x2a]). unfold INT_MAX. lia.
Defined.

(** X8. The answer of a query on a filter that was just built, false
    positives included: it is [true] exactly when every probe position of
    the asked key is a probe position of one of the inserted keys. *)
Theorem query_answer_on_built_filter {K : Type} `{BloomKey K} (sgn : bool)
    (bits_per_key : Z) (keys : list K) (n : Z) (key : K) :
  0 <= bits_per_key <= INT_MAX ->
  0 <= n <= INT_MAX ->
  n <= Z.of_nat (length keys) ->
  exists this filter answer,
    BloomFilter_ctor bits_per_key = Some this
    /\ CreateFilter sgn this keys n [] = Some filter
    /\ KeyMayMatch sgn this key filter = Some answer
    /\ let bits := 8 * (Z.of_nat (length filter) - 1) in
       (answer = true <->
        forall j : nat, Z.of_nat j < k_ this ->
          exists (i : nat) (key' : K) (j' : nat),
            Z.of_nat i < n /\ keys !! i = Some key' /\ Z.of_nat j' < k_ this
            /\ key_probe bits key j = key_probe bits key' j').
Proof.
  intros Hbpk Hn Hlen. unfold INT_MAX in *.
  destruct (BloomFilter_ctor_ok bits_per_key) as (this & Hctor & Hb & Hk);
    [unfold INT_MAX; lia|].
  destruct (CreateFilter_spec sgn this keys n [])
    as (arr & Hcf & Hl & _ & _); try rewrite Hb; try lia; try nia.
  destruct (built_filter_query sgn this this keys n [] key)
    as (filter & answer & Hcf' & _ & Hq & Hans); try rewrite Hb; try lia; try nia.
  rewrite Hcf in Hcf'. injection Hcf' as <-.
  exists this, (arr ++ [to_char (k_ this)]), answer.
  split; [exact Hctor|]. split; [exact Hcf|]. split; [exact Hq|].
  rewrite length_app. cbn [length].
  replace (Z.of_nat (length arr + 1) - 1) with (filter_bytes n (bits_per_key_ this)) by lia.
  rewrite Hb in Hans |- *. cbv zeta. rewrite Hans. split.
  - intros Hall j Hj. destruct (Hall j ltac:(lia)) as (i & key' & j' & ? & ? & ? & ?).
    exists i, key', j'. repeat split; try assumption; lia.
  - intros Hall j Hj. destruct (Hall j ltac:(lia)) as (i & key' & j' & ? & ? & ? & ?).
    exists i, key', j'. repeat split; try assumption; lia.
Qed.

Lemma query_answer_on_built_filter_witness :
  exists this filter answer,
    BloomFilter_ctor 10 = Some this
    /\ CreateFilter false this [1; 2; 3] 3 [] = Some filter
    /\ KeyMayMatch false this 4 filter = Some answer
    /\ let bits := 8 * (Z.of_nat (length filter) - 1) in
       (answer = true <->
        forall j : nat, Z.of_nat j < k_ this ->
          exists (i : nat) (key' : Z) (j' : nat),
            Z.of_nat i < 3 /\ [1; 2; 3] !! i = Some key' /\ Z.of_nat j' < k_ this
            /\ key_probe bits 4 j = key_probe bits key' j').
Proof.
  apply (query_answer_on_built_filter false 10 [1; 2; 3] 3 4).
  - unfold INT_MAX. lia.
  - unfold INT_MAX. lia.
  - simpl. lia.
Defined.

(** X9. The probe count survives the round trip through the last byte:
    the buffer that [CreateFilter] returns ends with a byte whose value is
    [k_], and that byte read as [char] and converted to [size_t], as
    [KeyMayMatch] does, is [k_] again for signed and for unsigned [char]. *)
Theorem built_filter_records_probe_count {K : Type} `{BloomKey K} (sgn : bool)
    (bits_per_key : Z) (keys : list K) (n : Z) (dst : list byte) :
  0 <= bits_per_key <= INT_MAX ->
  0 <= n <= INT_MAX ->
  n <= Z.of_nat (length keys) ->
  exists this dst' c,
    BloomFilter_ctor bits_per_key = Some this
    /\ CreateFilter sgn this keys n dst = Some dst'
    /\ last dst' = Some c
    /\ uchar c = k_ this
    /\ forall char_signed : bool, size_t (char_val char_signed c) = k_ this.
Proof.
  intros Hbpk Hn Hlen. unfold INT_MAX in *.
  destruct (BloomFilter_ctor_ok bits_per_key) as (this & Hctor & Hb & Hk);
    [unfold INT_MAX; lia|].
  destruct (CreateFilter_spec sgn this keys n dst)
    as (arr & Hcf & _); try rewrite Hb; try lia; try nia.
  exists this, (dst ++ arr ++ [to_char (k_ this)]), (to_char (k_ this)).
  assert (uchar (to_char (k_ this)) = k_ this) as Hu
    by (rewrite uchar_to_char; apply Z.mod_small; lia).
  split; [exact Hctor|]. split; [exact Hcf|]. split; [|split; [exact Hu|]].
  - rewrite !app_assoc. apply last_snoc.
  - intros s. rewrite <- Hu at 2. apply probe_count_of_char. lia.
Qed.

Lemma built_filter_records_probe_count_witness :
  exists this dst' c,
    BloomFilter_ctor 100 = Some this
    /\ CreateFilter true this [[x61]] 1 [xff] = Some dst'
    /\ last dst' = Some c
    /\ uchar c = k_ this
    /\ forall char_signed : bool, size_t (char_val char_signed c) = k_ this.
Proof.
  apply (built_filter_records_probe_count true 100 [[x61]] 1 [xff]).
  - unfold INT_MAX. lia.
  - unfold INT_MAX. lia.
  - simpl. lia.
Defined.



(** X11. The constructor on a negative [bits_per_key]: for [-1] the
    product [-0.69] truncates to 0, the probe count is raised to 1 and
    [bits_per_key_] wraps to [2^64 - 1]; from [-2] down to [INT_MIN] the
    product is a negative [double] below [-1], whose conversion to [size_t]
    is undefined, and so is the constructor's result. *)
Theorem BloomFilter_ctor_negative (bits_per_key : Z) :
  BloomFilter_ctor (-1) = Some {| bits_per_key_ := 2 ^ 64 - 1; k_ := 1 |}
  /\ (- 2 ^ 31 <= bits_per_key <= -2 ->
      size_t_of_double (SFmul prec emax (double_of_int bits_per_key) double_0_69) = None
      /\ BloomFilter_ctor bits_per_key = None).
Proof.
  split; [vm_compute; reflexivity|]. intros Hb.
  assert (size_t_of_double (SFmul prec emax (double_of_int bits_per_key) double_0_69) = None)
    as E.
  { replace bits_per_key with (- (- bits_per_key)) by lia. apply mul_0_69_negative. lia. }
  split; [exact E|]. unfold BloomFilter_ctor. rewrite E. reflexivity.
Qed.

Lemma BloomFilter_ctor_negative_witness :
  BloomFilter_ctor (-1) = Some {| bits_per_key_ := 2 ^ 64 - 1; k_ := 1 |}
  /\ size_t_of_double (SFmul prec emax (double_of_int (-10)) double_0_69) = None
  /\ BloomFilter_ctor (-10) = None.
Proof.
  destruct (BloomFilter_ctor_negative (-10)) as [H1 H2].
  split; [exact H1|]. apply H2. lia.
Defined.

(** X12. The probe count does not decrease when [bits_per_key] grows; it
    is 1 exactly for [bits_per_key <= 2] and it is 30 exactly from
    [bits_per_key = 44] on. *)
Theorem num_probes_monotone_saturating (b1 b2 : Z) :
  0 <= b1 <= b2 -> b2 <= INT_MAX ->
  exists this1 this2,
    BloomFilter_ctor b1 = Some this1 /\ BloomFilter_ctor b2 = Some this2
    /\ k_ this1 <= k_ this2
    /\ (k_ this1 = 1 <-> b1 <= 2)
    /\ (k_ this1 = 30 <-> 44 <= b1).
Proof.
  intros H12 Hmax.
  rewrite !BloomFilter_ctor_spec by lia.
  eexists _, _. split; [reflexivity|]. split; [reflexivity|]. simpl.
  unfold clamp_probes.
  assert (69 * b1 / 100 <= 69 * b2 / 100) by (apply Z.div_le_mono; lia).
  assert (b1 <= 2 <-> 69 * b1 / 100 <= 1) by (Z.div_mod_to_equations; lia).
  assert (44 <= b1 <-> 30 <= 69 * b1 / 100) by (Z.div_mod_to_equations; lia).
  lia.
Qed.

Lemma num_probes_monotone_saturating_witness :
  exists this1 this2,
    BloomFilter_ctor 10 = Some this1 /\ BloomFilter_ctor 20 = Some this2
    /\ k_ this1 <= k_ this2
    /\ (k_ this1 = 1 <-> 10 <= 2)
    /\ (k_ this1 = 30 <-> 44 <= 10).
Proof.
  apply (num_probes_monotone_saturating 10 20); unfold INT_MAX; lia.
Defined.

(** X13. Setting more bits never loses a match: if a filter matches a
    key, every filter of the same length and the same last byte whose bit
    array holds at least the same set bits matches it too. *)
Theorem KeyMayMatch_monotone_in_bits {K : Type} `{BloomKey K} (sgn : bool)
    (this that : BloomFilter) (key : K) (array1 array2 : list byte) (c : byte) :
  (1 <= length array1)%nat ->
  Z.of_nat (length array1) < 2 ^ 61 ->
  length array1 = length array2 ->
  (forall q, 0 <= q < 8 * Z.of_nat (length array1) ->
     bit_at array1 q = true -> bit_at array2 q = true) ->
  KeyMayMatch sgn this key (array1 ++ [c]) = Some true ->
  KeyMayMatch sgn that key (array2 ++ [c]) = Some true.
Proof.
  intros Hlen Hmax Hsame Hsub. rewrite !KeyMayMatch_unfold by lia.
  destruct (Z.ltb_spec 30 (uchar c)); [reflexivity|].
  rewrite <- Hsame. unfold size_t. rewrite Z.mod_small by lia.
  set (bits := 8 * Z.of_nat (length array1)) in *.
  destruct (test_probes_spec sgn array1 [c] bits (rotate_right_17 (BloomHash key))
              (Z.to_nat (uchar c)) (BloomHash key)) as (b1 & -> & Hb1);
    [lia|reflexivity|apply BloomHash_u32|].
  destruct (test_probes_spec sgn array2 [c] bits (rotate_right_17 (BloomHash key))
              (Z.to_nat (uchar c)) (BloomHash key)) as (b2 & -> & Hb2);
    [lia|lia|apply BloomHash_u32|].
  intros [= ->]. f_equal. apply Hb2. intros i Hi. apply Hsub.
  - apply probe_pos_range. lia.
  - apply Hb1; [reflexivity|assumption].
Qed.

Lemma KeyMayMatch_monotone_in_bits_witness :
  KeyMayMatch true (mkBloomFilter 10 6) [x61] ([x81] ++ [x01]) = Some true.
Proof.
  apply (KeyMayMatch_monotone_in_bits true (mkBloomFilter 20 13) (mkBloomFilter 10 6)
           [x61] [x01] [x81] x01).
  - simpl. lia.
  - simpl. lia.
  - reflexivity.
  - intros q Hq. simpl in Hq.
    assert (q = 0 \/ q = 1 \/ q = 2 \/ q = 3 \/ q = 4 \/ q = 5 \/ q = 6 \/ q = 7)
      as Hcases by lia.
    repeat destruct Hcases as [-> | Hcases]; try subst q; vm_compute; congruence.
  - vm_compute. reflexivity.
Defined.

Lemma Hash_words_rest n :
  forall (data : list byte) (h : Z),
  (length data <= n)%nat ->
  snd (Hash_words data h) = drop (4 * (length data / 4)) data
  /\ length (snd (Hash_words data h)) = (length data mod 4)%nat.
Proof.
  induction n as [|n IH]; intros data h Hlen.
  - destruct data; [split; reflexivity|simpl in Hlen; lia].
  - destruct data as [|b0 [|b1 [|b2 [|b3 rest]]]]; try (split; reflexivity).
    cbn [Hash_words].
    destruct (IH rest (Z.lxor (u32 (u32 (h + DecodeFixed32 b0 b1 b2 b3) * Hash_m))
                         (Z.shiftr (u32 (u32 (h + DecodeFixed32 b0 b1 b2 b3) * Hash_m)) 16)))
      as [Hrest Hl]; [simpl in Hlen; lia|].
    rewrite Hrest at 1. rewrite Hl. cbn [length].
    replace (S (S (S (S (length rest))))) with (length rest + 1 * 4)%nat by lia.
    rewrite Nat.div_add, Nat.Div0.mod_add by lia.
    split; [|reflexivity].
    replace (4 * (length rest / 4 + 1))%nat with (4 + 4 * (length rest / 4))%nat by lia.
    reflexivity.
Qed.

(** X14. The four-bytes-at-a-time loop of [Hash] stops with fewer than four
    bytes left, and they are the last [n mod 4] bytes of the input, so the
    [switch] on the rest sees 0 to 3 bytes.  When the length is a multiple
    of four there is no tail step: the result is the accumulator the loop
    ends with. *)
Theorem Hash_tail_is_last_bytes (data : list byte) (seed : Z) :
  let h0 := u32 (Z.lxor seed (size_t (Z.of_nat (length data) * Hash_m))) in
  let rest := snd (Hash_words data h0) in
  rest = drop (4 * (length data / 4)) data
  /\ (length rest = length data mod 4)%nat
  /\ (length rest < 4)%nat
  /\ Hash data seed = Hash_tail rest (fst (Hash_words data h0))
  /\ ((length data mod 4 = 0)%nat -> Hash data seed = fst (Hash_words data h0)).
Proof.
  intros h0 rest.
  destruct (Hash_words_rest (length data) data h0 (le_n _)) as [Hrest Hl].
  fold rest in Hrest, Hl.
  assert (Hash data seed = Hash_tail rest (fst (Hash_words data h0))) as HH.
  { unfold Hash. fold h0. subst rest. destruct (Hash_words data h0). reflexivity. }
  split; [exact Hrest|]. split; [exact Hl|]. split.
  - rewrite Hl. apply Nat.mod_upper_bound. lia.
  - split; [exact HH|]. intros Hz. rewrite HH.
    rewrite Hz in Hl. destruct rest; [reflexivity|discriminate].
Qed.

Lemma Hash_tail_is_last_bytes_witness :
  let data := [x01; x02; x03; x04; x05; x06; x07; x08] in
  let h0 := u32 (Z.lxor bloom_seed (size_t (Z.of_nat (length data) * Hash_m))) in
  let rest := snd (Hash_words data h0) in
  rest = drop (4 * (length data / 4)) data
  /\ (length rest = length data mod 4)%nat
  /\ (length rest < 4)%nat
  /\ Hash data bloom_seed = Hash_tail rest (fst (Hash_words data h0))
  /\ Hash data bloom_seed = fst (Hash_words data h0).
Proof.
  destruct (Hash_tail_is_last_bytes [x01; x02; x03; x04; x05; x06; x07; x08] bloom_seed)
    as (H1 & H2 & H3 & H4 & H5).
  split; [exact H1|]. split; [exact H2|]. split; [exact H3|]. split; [exact H4|].
  apply H5. reflexivity.
Defined.
